(** * Known-bits abstract domain: enumeration, concretization, abstraction
      and the brute-force [mulhs] transfer function

    Shallow embedding of [testMulhs.cpp], and of the copies of
    [enumerateFromBitWidth] and [abstraction] that [main.cpp] holds, together
    with the properties of the design document.

    Conventions of the embedding.
    - [uint64_t] and [unsigned] values are integers of [Z]; every operation
      that can leave the range has its wrap-around written out ([wrap64],
      [wrap32]).
    - A computation that trips an [assert], violates a precondition of an
      [llvm::APInt] member, or has undefined behaviour (a shift of a 64-bit
      operand by 64 or more, signed overflow) yields [None]; a computation
      that runs to its [return] yields [Some].
    - A [for] loop is [forM body range state]; [result.push_back (x)] is
      [result ++ [x]].
    - The room for a result is taken as provided.  The one request for room
      by a count of the program's own, [result.reserve (total)] in
      [enumerateFromBitWidth], is embedded in [WithStorage], with the
      storage that the run finds as a parameter. *)

From Stdlib Require Import ZArith Lia Bool String Ascii.
From stdpp Require Import base tactics option list list_numbers.

Local Open Scope Z_scope.

(** ** Control flow *)

(** An [assert (b)], or the precondition of a library call. *)
Definition check (b : bool) : option unit := if b then Some tt else None.

(** A loop over the elements of [l], threading the loop state [s]. *)
Fixpoint forM {A S : Type} (body : A → S → option S) (l : list A) (s : S)
    : option S :=
  match l with
  | [] => Some s
  | x :: l' => s' ← body x s; forM body l' s'
  end.

(** ** Machine integers *)

Definition wrap64 (z : Z) : Z := z mod 2 ^ 64.
Definition wrap32 (z : Z) : Z := z mod 2 ^ 32.

(** [a << n] on [uint64_t]: undefined when [n] is 64 or more. *)
Definition shl64 (a n : Z) : option Z :=
  check (n <? 64);; Some (wrap64 (Z.shiftl a n)).

(** ** [llvm::APInt]: a bit width and the unsigned value of the bits

    The members the program calls, each with the precondition it asserts. *)

Record APInt : Type := mkAPInt { BitWidth : Z; Val : Z }.

Module APInt.

Definition getZero (numBits : Z) : APInt := mkAPInt numBits 0.

Definition getAllOnes (numBits : Z) : APInt := mkAPInt numBits (Z.ones numBits).

(** [a[bitPosition]] *)
Definition getBit (a : APInt) (bitPosition : Z) : option bool :=
  check (bitPosition <? BitWidth a);; Some (Z.testbit (Val a) bitPosition).

Definition setBit (a : APInt) (bitPosition : Z) : option APInt :=
  check (bitPosition <? BitWidth a);;
  Some (mkAPInt (BitWidth a) (Z.setbit (Val a) bitPosition)).

Definition clearBit (a : APInt) (bitPosition : Z) : option APInt :=
  check (bitPosition <? BitWidth a);;
  Some (mkAPInt (BitWidth a) (Z.clearbit (Val a) bitPosition)).

(** [~a]: every bit flipped, the bits above the width cleared. *)
Definition not (a : APInt) : APInt :=
  mkAPInt (BitWidth a) (Z.land (Z.lnot (Val a)) (Z.ones (BitWidth a))).

(** [a &= b] *)
Definition and (a b : APInt) : option APInt :=
  check (BitWidth a =? BitWidth b);;
  Some (mkAPInt (BitWidth a) (Z.land (Val a) (Val b))).

Definition intersects (a b : APInt) : option bool :=
  check (BitWidth a =? BitWidth b);;
  Some (negb (Z.land (Val a) (Val b) =? 0)).

(** The value read as a two's-complement number. *)
Definition getSExtValue (a : APInt) : Z :=
  if Z.testbit (Val a) (BitWidth a - 1) then Val a - 2 ^ BitWidth a else Val a.

Definition sext (a : APInt) (width : Z) : option APInt :=
  check (BitWidth a <=? width);;
  Some (mkAPInt width (getSExtValue a mod 2 ^ width)).

(** [a * b], truncated to the common width. *)
Definition mul (a b : APInt) : option APInt :=
  check (BitWidth a =? BitWidth b);;
  Some (mkAPInt (BitWidth a) ((Val a * Val b) mod 2 ^ BitWidth a)).

Definition extractBits (a : APInt) (numBits bitPosition : Z) : option APInt :=
  check ((bitPosition <? BitWidth a) && (wrap32 (numBits + bitPosition) <=? BitWidth a));;
  Some (mkAPInt numBits (Z.land (Z.shiftr (Val a) bitPosition) (Z.ones numBits))).

Definition countPopulation (a : APInt) : Z :=
  Z.of_nat (length (filter (λ i, Z.testbit (Val a) i = true) (seqZ 0 (BitWidth a)))).

End APInt.

(** ** [llvm::KnownBits] *)

Record KnownBits : Type := mkKnownBits { Zero : APInt; One : APInt }.

Module KnownBits.

(** [KnownBits kb (bitWidth)]: nothing known. *)
Definition make (bitWidth : Z) : KnownBits :=
  mkKnownBits (APInt.getZero bitWidth) (APInt.getZero bitWidth).

Definition getBitWidth (kb : KnownBits) : option Z :=
  check (BitWidth (Zero kb) =? BitWidth (One kb));; Some (BitWidth (Zero kb)).

Definition hasConflict (kb : KnownBits) : option bool :=
  APInt.intersects (Zero kb) (One kb).

End KnownBits.

(** ** [enumerateFromBitWidth] *)

(** One round of the digit loop: [temp] is the rest of the ternary numeral. *)
Definition enumDigit (bit : Z) (st : Z * KnownBits) : option (Z * KnownBits) :=
  let '(temp, kb) := st in
  let digit := temp mod 3 in
  let temp := temp / 3 in
  if digit =? 0 then
    z ← APInt.setBit (Zero kb) bit; Some (temp, mkKnownBits z (One kb))
  else if digit =? 1 then
    o ← APInt.setBit (One kb) bit; Some (temp, mkKnownBits (Zero kb) o)
  else Some (temp, kb).

(** The body of the loop over [i]. *)
Definition enumState (bitWidth i : Z) : option KnownBits :=
  '(_, kb) ← forM enumDigit (seqZ 0 bitWidth) (i, KnownBits.make bitWidth);
  conflict ← KnownBits.hasConflict kb;
  check (negb conflict);;
  Some kb.

Definition enumTotal (bitWidth : Z) : option Z :=
  forM (λ (_ : Z) total, Some (wrap64 (total * 3))) (seqZ 0 bitWidth) 1.

(** The function once [result.reserve (total)] has returned. *)
Definition enumerateFromBitWidth (bitWidth : Z) : option (list KnownBits) :=
  total ← enumTotal bitWidth;
  forM (λ i result, kb ← enumState bitWidth i; Some (result ++ [kb]))
       (seqZ 0 total) [].

(** The storage that a run finds: [max_size ()] of [std::vector<KnownBits>],
    and whether the allocator provides the room for [n] elements. *)
Record Storage : Type := mkStorage { max_size : Z; provides : Z → bool }.

Inductive Exception : Type := length_error | bad_alloc.

(** How a call ends: it returns, it throws, or it is undefined ([None]
    above). *)
Inductive Ends (A : Type) : Type :=
| Returns (a : A)
| Throws (e : Exception)
| Undefined.

Arguments Returns {A} a.
Arguments Throws {A} e.
Arguments Undefined {A}.

(** [result.reserve (n)] on the empty vector [result]: [std::length_error]
    when [n] exceeds [max_size ()]; otherwise room for [n] elements is
    allocated when [n] exceeds the capacity, 0, and [std::bad_alloc] leaves
    the allocator when it has none. *)
Definition reserve (st : Storage) (n : Z) : Ends unit :=
  if max_size st <? n then Throws length_error
  else if 0 <? n then
    if provides st n then Returns tt else Throws bad_alloc
  else Returns tt.

Module WithStorage.

(** [enumerateFromBitWidth] with the call of [reserve]. *)
Definition enumerateFromBitWidth (st : Storage) (bitWidth : Z)
    : Ends (list KnownBits) :=
  match enumTotal bitWidth with
  | None => Undefined
  | Some total =>
      match reserve st total with
      | Returns _ =>
          match forM (λ i result, kb ← enumState bitWidth i; Some (result ++ [kb]))
                     (seqZ 0 total) [] with
          | Some result => Returns result
          | None => Undefined
          end
      | Throws e => Throws e
      | Undefined => Undefined
      end
  end.

End WithStorage.

(** ** [concretization] *)

(** The body of the loop that collects the unknown positions. *)
Definition collectUnknown (kb : KnownBits) (i : Z) (unknownIndexes : list Z)
    : option (list Z) :=
  APInt.getBit (Zero kb) i ≫= λ z : bool,
  if z then Some unknownIndexes
  else APInt.getBit (One kb) i ≫= λ o : bool,
       if o then Some unknownIndexes else Some (unknownIndexes ++ [i]).

Definition unknownIndexesOf (kb : KnownBits) (bw : Z) : option (list Z) :=
  forM (collectUnknown kb) (seqZ 0 bw) [].

(** One round of the loop over [unknownIndexes]. *)
Definition assignBit (unknownIdx : Z) (st : Z * APInt) : option (Z * APInt) :=
  let '(temp, ap) := st in
  ap' ← (if negb (Z.land temp 1 =? 0) then APInt.setBit ap unknownIdx
         else APInt.clearBit ap unknownIdx);
  Some (temp / 2, ap').

Definition concreteValue (kb : KnownBits) (unknownIndexes : list Z) (i : Z)
    : option APInt :=
  '(_, ap) ← forM assignBit unknownIndexes (i, One kb); Some ap.

Definition concretization (kb : KnownBits) : option (list APInt) :=
  bw ← KnownBits.getBitWidth kb;
  unknownIndexes ← unknownIndexesOf kb bw;
  total ← shl64 1 (Z.of_nat (length unknownIndexes));
  forM (λ i result, ap ← concreteValue kb unknownIndexes i; Some (result ++ [ap]))
       (seqZ 0 total) [].

(** ** [abstraction] *)

(** The body of the loop over [values], the same in both files. *)
Definition absorb (bw : Z) (value : APInt) (st : APInt * APInt)
    : option (APInt * APInt) :=
  let '(knownZero, knownOne) := st in
  check (BitWidth value =? bw);;
  knownZero ← APInt.and knownZero (APInt.not value);
  knownOne ← APInt.and knownOne value;
  Some (knownZero, knownOne).

(** [abstraction] of [testMulhs.cpp]. *)
Definition abstraction (values : list APInt) : option KnownBits :=
  check (negb (bool_decide (values = [])));;
  first ← head values;
  let bw := BitWidth first in
  '(knownZero, knownOne) ←
    forM (absorb bw) values (APInt.getAllOnes bw, APInt.getAllOnes bw);
  let kb := KnownBits.make bw in
  let kb := mkKnownBits knownZero (One kb) in
  let kb := mkKnownBits (Zero kb) knownOne in
  Some kb.

(** [main.cpp] holds earlier copies of the three functions above.  Its
    [concretization] is the same text; the other two differ as follows. *)
Module MainCpp.

(** [main.cpp]: the counter [i] of the outer loop is declared without an
    initialiser, and [i0] stands for the value it happens to hold; the
    [assert] is absent. *)
Definition enumState (bitWidth i : Z) : option KnownBits :=
  '(_, kb) ← forM enumDigit (seqZ 0 bitWidth) (i, KnownBits.make bitWidth);
  Some kb.

Definition enumerateFromBitWidth (i0 bitWidth : Z) : option (list KnownBits) :=
  total ← enumTotal bitWidth;
  forM (λ i result, kb ← enumState bitWidth i; Some (result ++ [kb]))
       (seqZ i0 (total - i0)) [].

(** [main.cpp]: [knownZero] starts from [APInt (bw, 0x0, false)]. *)
Definition abstraction (values : list APInt) : option KnownBits :=
  check (negb (bool_decide (values = [])));;
  first ← head values;
  let bw := BitWidth first in
  '(knownZero, knownOne) ←
    forM (absorb bw) values (APInt.getZero bw, APInt.getAllOnes bw);
  let kb := KnownBits.make bw in
  let kb := mkKnownBits knownZero (One kb) in
  let kb := mkKnownBits (Zero kb) knownOne in
  Some kb.

End MainCpp.

(** ** [naiveMulhs] *)

Definition mulhsPair (bw : Z) (cLhs cRhs : APInt) : option APInt :=
  wideLhs ← APInt.sext cLhs (wrap32 (2 * bw));
  wideRhs ← APInt.sext cRhs (wrap32 (2 * bw));
  prod ← APInt.mul wideLhs wideRhs;
  APInt.extractBits prod bw bw.

Definition naiveMulhs (lhs rhs : KnownBits) : option KnownBits :=
  bw ← KnownBits.getBitWidth lhs;
  bwRhs ← KnownBits.getBitWidth rhs;
  check (bw =? bwRhs);;
  concreteLhs ← concretization lhs;
  concreteRhs ← concretization rhs;
  cfResult ←
    forM (λ cLhs cfResult,
            forM (λ cRhs cfResult,
                    highBits ← mulhsPair bw cLhs cRhs;
                    Some (cfResult ++ [highBits]))
                 concreteRhs cfResult)
         concreteLhs [];
  abstraction cfResult.

(** ** [testMulhsTransferFunctions] *)

Record Counters : Type := mkCounters {
  compositeMorePrecise : Z;
  naiveMorePrecise : Z;
  samePrecision : Z;
  incomparableResults : Z
}.

(** The condition of the [if] inside the loop over [k]; [&&] and [||]
    evaluate their right operand only when needed. *)
Definition contradictsAt (composite naive : KnownBits) (k : Z) : option bool :=
  APInt.getBit (Zero composite) k ≫= λ compositeZero : bool,
  (if compositeZero then APInt.getBit (One naive) k else Some false) ≫= λ clash : bool,
  if clash then Some true
  else APInt.getBit (One composite) k ≫= λ compositeOne : bool,
       if compositeOne then APInt.getBit (Zero naive) k else Some false.

(** The loop over [k], left by [break] at the first contradiction.  [k] is
    an [int]: it cannot be stepped past [2 ^ 31 - 1]. *)
Fixpoint isIncomparable (ks : list Z) (composite naive : KnownBits) : option bool :=
  match ks with
  | [] => Some false
  | k :: ks' =>
      check (k <? 2 ^ 31);;
      contradictsAt composite naive k ≫= λ clash : bool,
      if clash then Some true else isIncomparable ks' composite naive
  end.

Definition precision (kb : KnownBits) : Z :=
  wrap32 (APInt.countPopulation (Zero kb) + APInt.countPopulation (One kb)).

(** What one round of the pair loop does once both results are there. *)
Definition comparePair (BitWidth : Z) (composite naive : KnownBits) (c : Counters)
    : option Counters :=
  isIncomparable (seqZ 0 BitWidth) composite naive ≫= λ incomparable : bool,
  if incomparable then
    Some (mkCounters (compositeMorePrecise c) (naiveMorePrecise c) (samePrecision c)
                     (wrap64 (incomparableResults c + 1)))
  else
    let compositePrecision := precision composite in
    let naivePrecision := precision naive in
    if naivePrecision <? compositePrecision then
      Some (mkCounters (wrap64 (compositeMorePrecise c + 1)) (naiveMorePrecise c)
                       (samePrecision c) (incomparableResults c))
    else if compositePrecision <? naivePrecision then
      Some (mkCounters (compositeMorePrecise c) (wrap64 (naiveMorePrecise c + 1))
                       (samePrecision c) (incomparableResults c))
    else
      Some (mkCounters (compositeMorePrecise c) (naiveMorePrecise c)
                       (wrap64 (samePrecision c + 1)) (incomparableResults c)).

(** What the function prints, the two average times left out. *)
Record Report : Type := mkReport {
  reportBitWidth : Z;
  totalKnownBits : Z;
  reportCounters : Counters
}.

Section ComparisonEngine.

(** [llvm::KnownBits::mulhs], the transfer function under test. *)
Variable mulhs : KnownBits → KnownBits → KnownBits.

Definition testPair (BitWidth : Z) (LHS RHS : KnownBits) (c : Counters)
    : option Counters :=
  let composite := mulhs LHS RHS in
  naive ← naiveMulhs LHS RHS;
  comparePair BitWidth composite naive c.

Definition testMulhsTransferFunctions (BitWidth : Z) : option Report :=
  allKnownBits ← enumerateFromBitWidth BitWidth;
  let totalKnownBits := Z.of_nat (length allKnownBits) in
  c ← forM (λ LHS c, forM (λ RHS c, testPair BitWidth LHS RHS c) allKnownBits c)
           allKnownBits (mkCounters 0 0 0 0);
  Some (mkReport BitWidth totalKnownBits c).

End ComparisonEngine.

(** ** [main] *)

(** [std::stoi (str)]: the value, or the exception it throws. *)
Inductive stoi_result : Type :=
| StoiValue (v : Z)
| StoiInvalidArgument
| StoiOutOfRange.

Definition isSpace (c : ascii) : bool :=
  let n := Z.of_nat (nat_of_ascii c) in (n =? 32) || ((9 <=? n) && (n <=? 13)).

Definition digitOf (c : ascii) : option Z :=
  let n := Z.of_nat (nat_of_ascii c) in
  if (48 <=? n) && (n <=? 57) then Some (n - 48) else None.

Fixpoint skipSpace (s : string) : string :=
  match s with
  | String c s' => if isSpace c then skipSpace s' else s
  | EmptyString => s
  end.

Fixpoint readDigits (s : string) (acc : Z) : Z :=
  match s with
  | String c s' =>
      match digitOf c with
      | Some d => readDigits s' (10 * acc + d)
      | None => acc
      end
  | EmptyString => acc
  end.

Definition startsWithDigit (s : string) : bool :=
  match s with
  | String c _ => bool_decide (is_Some (digitOf c))
  | EmptyString => false
  end.

(** The optional sign in front of the digits. *)
Definition stripSign (s : string) : bool * string :=
  match s with
  | String c s' =>
      if Ascii.eqb c "-" then (true, s')
      else if Ascii.eqb c "+" then (false, s')
      else (false, s)
  | EmptyString => (false, s)
  end.

Definition stoi (str : string) : stoi_result :=
  let '(negative, s) := stripSign (skipSpace str) in
  if startsWithDigit s then
    let v := readDigits s 0 in
    let v := if negative then - v else v in
    if (- 2 ^ 31 <=? v) && (v <? 2 ^ 31) then StoiValue v else StoiOutOfRange
  else StoiInvalidArgument.

Inductive Printed : Type :=
| Usage (text : string)
| Results (r : Report).

Inductive Outcome : Type :=
| Returned (status : Z) (out : Printed)
| Terminated
| Failed.

Section Main.

Variable mulhs : KnownBits → KnownBits → KnownBits.

(** [argc] is the length of [argv].  [Terminated]: an exception left
    [main]; [Failed]: [testMulhsTransferFunctions] did not return. *)
Definition main (argv : list string) : Outcome :=
  let argc := Z.of_nat (length argv) in
  if argc <? 2 then Returned 1 (Usage "Usage: testMulhs <bitWidth>")
  else
    match argv !! 1%nat with
    | None => Failed
    | Some arg =>
        let bw := 6 in
        let parsed :=
          match stoi arg with
          | StoiValue v => Some (wrap32 v)
          | StoiInvalidArgument => Some 4
          | StoiOutOfRange => None
          end in
        match parsed with
        | None => Terminated
        | Some bw =>
            match testMulhsTransferFunctions mulhs bw with
            | Some r => Returned 0 (Results r)
            | None => Failed
            end
        end
    end.

End Main.

(** ** Vocabulary of the properties *)

(** An [APInt] keeps its value within its width; the width is an [unsigned]. *)
Definition wfAPInt (a : APInt) : Prop :=
  0 ≤ BitWidth a < 2 ^ 32 ∧ 0 ≤ Val a < 2 ^ BitWidth a.

(** An abstract state of width [w]: two masks of [w] bits. *)
Definition hasWidth (w : Z) (kb : KnownBits) : Prop :=
  wfAPInt (Zero kb) ∧ wfAPInt (One kb) ∧ BitWidth (Zero kb) = w ∧ BitWidth (One kb) = w.

(** A concrete value of width [w]. *)
Definition isValue (w : Z) (v : APInt) : Prop := wfAPInt v ∧ BitWidth v = w.

(** [Zero & One == 0] *)
Definition noConflict (kb : KnownBits) : Prop :=
  Z.land (Val (Zero kb)) (Val (One kb)) = 0.

Definition bit (a : APInt) (k : Z) : bool := Z.testbit (Val a) k.

(** Every Zero bit of [kb] is clear in [v], every One bit is set in [v]. *)
Definition consistent (v : APInt) (kb : KnownBits) : Prop :=
  ∀ k, 0 ≤ k →
    (bit (Zero kb) k = true → bit v k = false) ∧
    (bit (One kb) k = true → bit v k = true).

Definition isUnknown (kb : KnownBits) (k : Z) : bool :=
  negb (bit (Zero kb) k) && negb (bit (One kb) k).

Definition unknownBits (kb : KnownBits) : list Z :=
  filter (λ k, isUnknown kb k = true) (seqZ 0 (BitWidth (Zero kb))).

(** The number of Unknown bits of a state. *)
Definition numUnknown (kb : KnownBits) : Z := Z.of_nat (length (unknownBits kb)).

(** The disposition of bit [b] in the state of index [i]: the ternary digit. *)
Definition ternaryDigit (i b : Z) : Z := (i / 3 ^ b) mod 3.

(** [kb] has width [w]; each of its bits below [n] is Zero, One or Unknown
    as the digit of [i] at that position is 0, 1 or 2; nothing is known of
    the bits from [n] on. *)
Definition ternaryPrefix (w n i : Z) (kb : KnownBits) : Prop :=
  BitWidth (Zero kb) = w ∧ BitWidth (One kb) = w ∧
  ∀ b, 0 ≤ b →
    bit (Zero kb) b = (b <? n) && (ternaryDigit i b =? 0) ∧
    bit (One kb) b = (b <? n) && (ternaryDigit i b =? 1).

(** The state of width [w] and index [i]. *)
Definition ternaryState (w i : Z) (kb : KnownBits) : Prop := ternaryPrefix w w i kb.

(** The pure reading of the loop over [unknownIndexes]: bit [j] of [i] goes
    to position [idxs !! j]. *)
Fixpoint scatter (idxs : list Z) (i v : Z) : Z :=
  match idxs with
  | [] => v
  | idx :: idxs' =>
      scatter idxs' (i / 2) (if Z.odd i then Z.setbit v idx else Z.clearbit v idx)
  end.

(** The inverse reading: the bits of [v] at [idxs], packed from bit 0. *)
Fixpoint gather (idxs : list Z) (v : Z) : Z :=
  match idxs with
  | [] => 0
  | idx :: idxs' => Z.b2z (Z.testbit v idx) + 2 * gather idxs' v
  end.

(** The two's-complement reading of a [w]-bit value. *)
Definition signedValue (w v : Z) : Z := if 2 ^ (w - 1) <=? v then v - 2 ^ w else v.

(** The exact signed high multiplication: the high [w] bits of the
    [2 * w]-bit product of the two operands read as signed numbers. *)
Definition mulhsExact (w : Z) (lhs rhs : APInt) : APInt :=
  mkAPInt w ((signedValue w (Val lhs) * signedValue w (Val rhs)) / 2 ^ w mod 2 ^ w).

(** The two results contradict each other at bit [k]. *)
Definition contradiction (reference naive : KnownBits) (k : Z) : bool :=
  (bit (Zero reference) k && bit (One naive) k) ||
  (bit (One reference) k && bit (Zero naive) k).

(** The two results contradict each other at some bit below [w]. *)
Definition contradictory (w : Z) (reference naive : KnownBits) : Prop :=
  ∃ k, 0 ≤ k < w ∧
    ((bit (Zero reference) k = true ∧ bit (One naive) k = true) ∨
     (bit (One reference) k = true ∧ bit (Zero naive) k = true)).

(** The number of Zero bits plus the number of One bits. *)
Definition precisionCount (kb : KnownBits) : Z :=
  APInt.countPopulation (Zero kb) + APInt.countPopulation (One kb).

Inductive Verdict : Type := ReferencePreciser | NaivePreciser | Equal | Incomparable.

Definition bump (n : Z) : Z := wrap64 (n + 1).

(** The counters after the one that belongs to the verdict is incremented. *)
Definition tally (v : Verdict) (c : Counters) : Counters :=
  match v with
  | ReferencePreciser =>
      mkCounters (bump (compositeMorePrecise c)) (naiveMorePrecise c)
                 (samePrecision c) (incomparableResults c)
  | NaivePreciser =>
      mkCounters (compositeMorePrecise c) (bump (naiveMorePrecise c))
                 (samePrecision c) (incomparableResults c)
  | Equal =>
      mkCounters (compositeMorePrecise c) (naiveMorePrecise c)
                 (bump (samePrecision c)) (incomparableResults c)
  | Incomparable =>
      mkCounters (compositeMorePrecise c) (naiveMorePrecise c)
                 (samePrecision c) (bump (incomparableResults c))
  end.

Definition counterSum (c : Counters) : Z :=
  compositeMorePrecise c + naiveMorePrecise c + samePrecision c + incomparableResults c.

(** Every counter holds a [uint64_t]. *)
Definition countersInRange (c : Counters) : Prop :=
  0 ≤ compositeMorePrecise c < 2 ^ 64 ∧ 0 ≤ naiveMorePrecise c < 2 ^ 64 ∧
  0 ≤ samePrecision c < 2 ^ 64 ∧ 0 ≤ incomparableResults c < 2 ^ 64.

(** The reference keeps the width of its operands. *)
Definition keepsWidth (w : Z) (mulhs : KnownBits → KnownBits → KnownBits) : Prop :=
  ∀ lhs rhs, hasWidth w lhs → hasWidth w rhs →
    BitWidth (Zero (mulhs lhs rhs)) = w ∧ BitWidth (One (mulhs lhs rhs)) = w.

(** [s] starts, after white space and an optional sign, with a decimal
    digit: the strings that [std::stoi] converts or finds out of range. *)
Definition parsesAsInteger (s : string) : Prop :=
  ∃ (spaces sign : string) (d : ascii) (rest : string),
    s = (spaces ++ sign ++ String d rest)%string ∧
    skipSpace spaces = EmptyString ∧
    (sign = EmptyString ∨ sign = String "+" EmptyString ∨ sign = String "-" EmptyString) ∧
    is_Some (digitOf d).

(** A reference transfer function that knows nothing: every bit Unknown. *)
Definition topMulhs (lhs rhs : KnownBits) : KnownBits :=
  KnownBits.make (BitWidth (Zero lhs)).

(** ** Vocabulary of the further properties *)

(** The ternary digit that [enumerateFromBitWidth] turns into the
    disposition bit [b] has in [kb]. *)
Definition stateDigit (kb : KnownBits) (b : Z) : Z :=
  if bit (Zero kb) b then 0 else if bit (One kb) b then 1 else 2.

(** The index whose lowest [n] ternary digits spell the lowest [n] bits of [kb]. *)
Fixpoint stateIndex (n : nat) (kb : KnownBits) : Z :=
  match n with
  | O => 0
  | S n' => stateIndex n' kb + stateDigit kb (Z.of_nat n') * 3 ^ Z.of_nat n'
  end.

(** [kb] with every conflicting bit taken as One: [Zero & ~One] and [One]. *)
Definition resolve (kb : KnownBits) : KnownBits :=
  mkKnownBits (mkAPInt (BitWidth (Zero kb)) (Z.ldiff (Val (Zero kb)) (Val (One kb))))
              (One kb).

(** [a] knows every bit that [b] knows, with the same value. *)
Definition refines (a b : KnownBits) : Prop :=
  ∀ k, 0 ≤ k →
    (bit (Zero b) k = true → bit (Zero a) k = true) ∧
    (bit (One b) k = true → bit (One a) k = true).

(** What two states both know: the Zero masks intersected, and the One masks. *)
Definition common (a b : KnownBits) : KnownBits :=
  mkKnownBits (mkAPInt (BitWidth (Zero a)) (Z.land (Val (Zero a)) (Val (Zero b))))
              (mkAPInt (BitWidth (One a)) (Z.land (Val (One a)) (Val (One b)))).

(** The reference is sound at width [w]: its result is consistent with the
    exact product of any two values that its operands stand for. *)
Definition soundAt (w : Z) (mulhs : KnownBits → KnownBits → KnownBits) : Prop :=
  ∀ lhs rhs a b,
    hasWidth w lhs → noConflict lhs → hasWidth w rhs → noConflict rhs →
    isValue w a → consistent a lhs → isValue w b → consistent b rhs →
    consistent (mulhsExact w a b) (mulhs lhs rhs).

(** The reference returns what [naiveMulhs] returns at width [w]. *)
Definition exactAt (w : Z) (mulhs : KnownBits → KnownBits → KnownBits) : Prop :=
  ∀ lhs rhs,
    hasWidth w lhs → noConflict lhs → hasWidth w rhs → noConflict rhs →
    naiveMulhs lhs rhs = Some (mulhs lhs rhs).

(** [naiveMulhs] in the place of the reference. *)
Definition naiveReference (lhs rhs : KnownBits) : KnownBits :=
  default (KnownBits.make (BitWidth (Zero lhs))) (naiveMulhs lhs rhs).

(** Case analysis on every comparison of the goal. *)
Ltac case_cmp :=
  repeat match goal with
  | |- context [?a <? ?b] => destruct (Z.ltb_spec a b)
  | |- context [?a <=? ?b] => destruct (Z.leb_spec a b)
  | |- context [?a =? ?b] => destruct (Z.eqb_spec a b)
  end.

(** * Properties *)

(** ** Loops *)

Section Loops.

Context {A S : Type}.
Implicit Types (l : list A) (s : S).

Lemma forM_app (body : A → S → option S) l1 l2 s :
  forM body (l1 ++ l2) s = forM body l1 s ≫= forM body l2.
Proof.
  revert s. induction l1 as [|x l1 IH]; intros s; simpl; [done|].
  destruct (body x s) as [s'|]; simpl; [apply IH | done].
Qed.

(** A loop whose rounds keep an invariant, indexed by the elements
    already visited, runs to its end and establishes the invariant. *)
Lemma forM_invariant (body : A → S → option S) (I : list A → S → Prop) l s :
  I [] s →
  (∀ done x s, x ∈ l → I done s → ∃ s', body x s = Some s' ∧ I (done ++ [x]) s') →
  ∃ s', forM body l s = Some s' ∧ I l s'.
Proof.
  revert I s. induction l as [|x l IH]; intros I s H0 Hstep; simpl.
  - eauto.
  - destruct (Hstep [] x s) as (s' & -> & Hs'); [left | done |]. simpl.
    apply (IH (λ done, I (x :: done))); [done|].
    intros done y t Hy Ht. apply (Hstep (x :: done)); [by right | done].
Qed.

End Loops.

(** A loop that only appends to a vector is a traversal. *)
Lemma forM_push_back {A B : Type} (f : A → option B) (l : list A) (acc : list B) :
  forM (λ x result, y ← f x; Some (result ++ [y])) l acc
  = ys ← mapM f l; Some (acc ++ ys).
Proof.
  revert acc. induction l as [|x l IH]; intros acc; simpl.
  - by rewrite app_nil_r.
  - destruct (f x) as [y|]; simpl; [|done].
    rewrite IH. destruct (mapM f l) as [ys|]; simpl; [|done].
    by rewrite <- app_assoc.
Qed.

Lemma forM_push_back_all {A B : Type} (g : A → option (list B)) (l : list A)
    (acc : list B) :
  forM (λ x result, ys ← g x; Some (result ++ ys)) l acc
  = yss ← mapM g l; Some (acc ++ concat yss).
Proof.
  revert acc. induction l as [|x l IH]; intros acc; simpl.
  - by rewrite app_nil_r.
  - destruct (g x) as [ys|]; simpl; [|done].
    rewrite IH. destruct (mapM g l) as [yss|]; simpl; [|done].
    by rewrite <- app_assoc.
Qed.

(** ** Enumeration *)

Lemma pow3_loop (l : list Z) (t : Z) :
  0 ≤ t < 2 ^ 64 →
  forM (λ (_ : Z) total, Some (wrap64 (total * 3))) l t
  = Some ((t * 3 ^ Z.of_nat (length l)) mod 2 ^ 64).
Proof.
  revert t. induction l as [|x l IH]; intros t Ht; simpl forM.
  - simpl. rewrite Z.mul_1_r, Z.mod_small by done. done.
  - simpl. rewrite IH by (unfold wrap64; apply Z.mod_pos_bound; lia).
    f_equal. unfold wrap64. rewrite Z.mul_mod_idemp_l by lia.
    f_equal. rewrite Nat2Z.inj_succ, Z.pow_succ_r by lia. ring.
Qed.

Lemma enumTotal_spec w : 0 ≤ w → enumTotal w = Some (3 ^ w mod 2 ^ 64).
Proof.
  intros Hw. unfold enumTotal. rewrite pow3_loop by lia.
  rewrite length_seqZ, Z2Nat.id, Z.mul_1_l by lia. done.
Qed.

Lemma setbit_bits a n m : 0 ≤ n → Z.testbit (Z.setbit a n) m = (n =? m) || Z.testbit a m.
Proof. intros. rewrite Z.setbit_eqb by done. done. Qed.

Lemma clearbit_bits a n m : 0 ≤ n → Z.testbit (Z.clearbit a n) m = Z.testbit a m && negb (n =? m).
Proof. intros. rewrite Z.clearbit_eqb by done. done. Qed.

Lemma ternaryDigit_range i b : 0 ≤ ternaryDigit i b < 3.
Proof. unfold ternaryDigit. apply Z.mod_pos_bound. lia. Qed.



Lemma div3_succ i n : 0 ≤ n → (i / 3 ^ n) / 3 = i / 3 ^ Z.succ n.
Proof.
  intros. rewrite Z.pow_succ_r, Z.mul_comm by done.
  rewrite Z.div_div; [done | lia | lia].
Qed.

Lemma enumDigits_spec (w i : Z) (n : nat) :
  0 ≤ i → Z.of_nat n ≤ w →
  ∃ kb, forM enumDigit (seqZ 0 (Z.of_nat n)) (i, KnownBits.make w) = Some (i / 3 ^ Z.of_nat n, kb) ∧
        ternaryPrefix w (Z.of_nat n) i kb.
Proof.
  intros Hi. induction n as [|n IH]; intros Hn.
  - change (Z.of_nat 0) with 0. exists (KnownBits.make w). split.
    + simpl. by rewrite Z.div_1_r.
    + split; [done|]. split; [done|]. intros b Hb. unfold bit. simpl.
      rewrite Z.bits_0. destruct (Z.ltb_spec b 0); [lia | split; reflexivity].
  - destruct IH as (kb & Hrun & Hw0 & Hw1 & Hbits); [lia|].
    rewrite seqZ_S, forM_app, Hrun. simpl.
    rewrite Z.add_0_l, Nat2Z.inj_succ, div3_succ by lia.
    fold (ternaryDigit i (Z.of_nat n)).
    pose proof (ternaryDigit_range i (Z.of_nat n)) as Hd.
    unfold APInt.setBit. rewrite Hw0, Hw1.
    replace (Z.of_nat n <? w) with true by lia. simpl.
    destruct (Z.eqb_spec (ternaryDigit i (Z.of_nat n)) 0) as [E0|E0];
      [|destruct (Z.eqb_spec (ternaryDigit i (Z.of_nat n)) 1) as [E1|E1]];
      simpl; eexists; (split; [reflexivity|]);
      (split; [done|]); (split; [done|]); intros b Hb;
      destruct (Hbits b Hb) as [Hz Ho]; unfold bit in *; simpl;
      rewrite ?setbit_bits, ?Hz, ?Ho by lia;
      destruct (Z.eq_dec b (Z.of_nat n)) as [->|Hne];
      case_cmp; simpl; try lia; try done.
Qed.

Lemma bits_bounded w v :
  0 ≤ w → (∀ b, w ≤ b → Z.testbit v b = false) → 0 ≤ v < 2 ^ w.
Proof.
  intros Hw Hb. assert (v = v mod 2 ^ w) as ->.
  { apply Z.bits_inj'. intros n Hn. rewrite Z.testbit_mod_pow2 by done.
    destruct (Z.ltb_spec n w); simpl; [done | by apply Hb]. }
  apply Z.mod_pos_bound. lia.
Qed.

Lemma bounded_bits w v b : 0 ≤ v < 2 ^ w → w ≤ b → Z.testbit v b = false.
Proof.
  intros Hv Hb. destruct (Z.le_gt_cases 0 w) as [Hw|Hw].
  - rewrite <- (Z.mod_small v (2 ^ w)) by done. apply Z.mod_pow2_bits_high. lia.
  - rewrite Z.pow_neg_r in Hv by done. lia.
Qed.

Lemma ternaryState_noConflict w i kb : ternaryState w i kb → noConflict kb.
Proof.
  intros (_ & _ & Hbits). apply Z.bits_inj'. intros b Hb.
  rewrite Z.land_spec, Z.bits_0. destruct (Hbits b Hb) as [Hz Ho].
  unfold bit in *. rewrite Hz, Ho. case_cmp; simpl; try done; lia.
Qed.

Lemma ternaryState_hasWidth w i kb :
  0 ≤ w < 2 ^ 32 → ternaryState w i kb → hasWidth w kb.
Proof.
  intros Hw (Hw0 & Hw1 & Hbits).
  assert (0 ≤ Val (Zero kb) < 2 ^ w ∧ 0 ≤ Val (One kb) < 2 ^ w) as [? ?].
  { split; apply bits_bounded; try lia; intros b Hb;
      destruct (Hbits b) as [Hz Ho]; try lia; unfold bit in *;
      rewrite ?Hz, ?Ho; case_cmp; simpl; try done; lia. }
  unfold hasWidth, wfAPInt. rewrite Hw0, Hw1. done.
Qed.

Lemma enumState_spec w i :
  0 ≤ w → 0 ≤ i → ∃ kb, enumState w i = Some kb ∧ ternaryState w i kb.
Proof.
  intros Hw Hi.
  destruct (enumDigits_spec w i (Z.to_nat w)) as (kb & Hrun & Hkb); [lia..|].
  rewrite Z2Nat.id in Hrun, Hkb by done.
  exists kb. split; [|done]. unfold enumState. rewrite Hrun. simpl.
  unfold KnownBits.hasConflict, APInt.intersects.
  destruct Hkb as (Hw0 & Hw1 & Hbits) eqn:E.
  rewrite Hw0, Hw1, Z.eqb_refl. simpl.
  rewrite (ternaryState_noConflict w i kb) by done. done.
Qed.

Lemma digits_determine (n : nat) i j :
  (∀ b, 0 ≤ b < Z.of_nat n → ternaryDigit i b = ternaryDigit j b) →
  i mod 3 ^ Z.of_nat n = j mod 3 ^ Z.of_nat n.
Proof.
  induction n as [|n IH]; intros Hd.
  - by rewrite !Z.mod_1_r.
  - rewrite Nat2Z.inj_succ, Z.pow_succ_r, Z.mul_comm by lia.
    rewrite !Z.rem_mul_r by lia.
    rewrite IH by (intros; apply Hd; lia).
    specialize (Hd (Z.of_nat n)). unfold ternaryDigit in Hd. rewrite Hd by lia. done.
Qed.

Lemma ternaryState_inj w i j kb :
  0 ≤ w → 0 ≤ i < 3 ^ w → 0 ≤ j < 3 ^ w →
  ternaryState w i kb → ternaryState w j kb → i = j.
Proof.
  intros Hw Hi Hj (_ & _ & Hbi) (_ & _ & Hbj).
  rewrite <- (Z.mod_small i (3 ^ w)), <- (Z.mod_small j (3 ^ w)) by done.
  rewrite <- (Z2Nat.id w) by done. apply digits_determine.
  rewrite Z2Nat.id by done. intros b Hb.
  destruct (Hbi b) as [Hzi Hoi]; [lia|]. destruct (Hbj b) as [Hzj Hoj]; [lia|].
  rewrite Hzi in Hzj. rewrite Hoi in Hoj.
  pose proof (ternaryDigit_range i b). pose proof (ternaryDigit_range j b).
  revert Hzj Hoj. case_cmp; simpl; intros; try done; lia.
Qed.

Lemma enumerate_spec w :
  0 ≤ w →
  ∃ l, enumerateFromBitWidth w = Some l ∧
       Forall2 (ternaryState w) (seqZ 0 (3 ^ w mod 2 ^ 64)) l.
Proof.
  intros Hw. unfold enumerateFromBitWidth. rewrite enumTotal_spec by done. simpl.
  rewrite forM_push_back.
  set (total := 3 ^ w mod 2 ^ 64).
  assert (∃ l, mapM (enumState w) (seqZ 0 total) = Some l ∧
               Forall2 (ternaryState w) (seqZ 0 total) l) as (l & -> & Hl).
  { assert (Forall (λ i, 0 ≤ i) (seqZ 0 total)) as Hpos
      by (apply Forall_seqZ; lia).
    induction Hpos as [|i rest Hi _ IH].
    - exists []. split; [done | constructor].
    - destruct IH as (l & Hl & Hst).
      destruct (enumState_spec w i Hw Hi) as (kb & Hkb & Hs).
      exists (kb :: l). split; [|by constructor].
      rewrite mapM_Some. constructor; [done|]. by apply mapM_Some. }
  exists l. done.
Qed.

(** ** Concretization *)

Lemma mapM_total {A B : Type} (f : A → option B) (g : A → B) (l : list A) :
  (∀ x, x ∈ l → f x = Some (g x)) → mapM f l = Some (g <$> l).
Proof.
  intros Hf. apply mapM_Some. apply Forall2_fmap_r, Forall_Forall2_diag.
  by apply Forall_forall.
Qed.

Lemma shl64_one k : 0 ≤ k < 64 → shl64 1 k = Some (2 ^ k).
Proof.
  intros Hk. unfold shl64. replace (k <? 64) with true by lia. simpl.
  rewrite Z.shiftl_1_l. unfold wrap64. rewrite Z.mod_small; [done|].
  split; [lia|]. apply Z.pow_lt_mono_r; lia.
Qed.

Lemma land_one_odd t : (Z.land t 1 =? 0) = negb (Z.odd t).
Proof.
  change 1 with (Z.ones 1). rewrite Z.land_ones by lia.
  change (2 ^ 1) with 2. rewrite Zmod_odd. by destruct (Z.odd t).
Qed.

Lemma unknownIndexes_spec kb w :
  0 ≤ w → BitWidth (Zero kb) = w → BitWidth (One kb) = w →
  unknownIndexesOf kb w = Some (unknownBits kb).
Proof.
  intros Hw Hw0 Hw1. unfold unknownIndexesOf, unknownBits. rewrite Hw0.
  assert (∀ n : nat, Z.of_nat n ≤ w →
            forM (collectUnknown kb) (seqZ 0 (Z.of_nat n)) []
            = Some (filter (λ k, isUnknown kb k = true) (seqZ 0 (Z.of_nat n)))) as Hgen.
  { induction n as [|n IH]; intros Hn; [done|].
    rewrite seqZ_S, forM_app, IH by lia. simpl. rewrite !Z.add_0_l.
    unfold collectUnknown, APInt.getBit. rewrite Hw0, Hw1.
    replace (Z.of_nat n <? w) with true by lia. simpl.
    rewrite filter_app, filter_cons, filter_nil. unfold isUnknown, bit.
    destruct (Z.testbit (Val (Zero kb)) (Z.of_nat n)); simpl;
      [|destruct (Z.testbit (Val (One kb)) (Z.of_nat n)); simpl];
      try case_decide; try done; by rewrite app_nil_r. }
  specialize (Hgen (Z.to_nat w)). rewrite Z2Nat.id in Hgen by done. apply Hgen. lia.
Qed.

Lemma unknownBits_spec kb k :
  k ∈ unknownBits kb ↔ 0 ≤ k < BitWidth (Zero kb) ∧ isUnknown kb k = true.
Proof.
  unfold unknownBits. rewrite list_elem_of_filter, elem_of_seqZ. intuition lia.
Qed.

Lemma unknownBits_NoDup kb : NoDup (unknownBits kb).
Proof. apply NoDup_filter, NoDup_seqZ. Qed.

Lemma assignBits_spec idxs i ap :
  (∀ idx, idx ∈ idxs → 0 ≤ idx < BitWidth ap) →
  forM assignBit idxs (i, ap)
  = Some (i / 2 ^ Z.of_nat (length idxs),
          mkAPInt (BitWidth ap) (scatter idxs i (Val ap))).
Proof.
  revert i ap. induction idxs as [|idx idxs IH]; intros i ap Hin.
  - simpl. rewrite Z.div_1_r. by destruct ap.
  - assert (0 ≤ idx < BitWidth ap) as Hidx by (apply Hin; left).
    simpl forM. unfold assignBit at 1. rewrite land_one_odd, negb_involutive.
    unfold APInt.setBit, APInt.clearBit.
    replace (idx <? BitWidth ap) with true by lia.
    assert (2 ^ Z.of_nat (length (idx :: idxs)) = 2 * 2 ^ Z.of_nat (length idxs)) as ->.
    { simpl length. rewrite Nat2Z.inj_succ, Z.pow_succ_r by lia. done. }
    simpl scatter.
    destruct (Z.odd i); simpl; rewrite IH by (intros; apply Hin; by right);
      simpl; rewrite Z.div_div by lia; done.
Qed.

Lemma scatter_outside idxs i v p :
  (∀ idx, idx ∈ idxs → 0 ≤ idx) → p ∉ idxs →
  Z.testbit (scatter idxs i v) p = Z.testbit v p.
Proof.
  revert i v. induction idxs as [|idx idxs IH]; intros i v Hpos Hp; [done|].
  apply not_elem_of_cons in Hp as [Hne Hp]. simpl.
  rewrite IH by (try done; intros; apply Hpos; by right).
  assert (0 ≤ idx) by (apply Hpos; left).
  destruct (Z.odd i); rewrite ?setbit_bits, ?clearbit_bits by done;
    case_cmp; simpl; try done; try lia; by rewrite andb_true_r.
Qed.

Lemma gather_range idxs v : 0 ≤ gather idxs v < 2 ^ Z.of_nat (length idxs).
Proof.
  induction idxs as [|idx idxs IH]; [simpl; lia|].
  simpl gather. simpl length. rewrite Nat2Z.inj_succ, Z.pow_succ_r by lia.
  destruct (Z.testbit v idx); simpl Z.b2z; lia.
Qed.

Lemma mod_pow2_succ i n :
  0 ≤ n → i mod 2 ^ Z.succ n = Z.b2z (Z.odd i) + 2 * ((i / 2) mod 2 ^ n).
Proof.
  intros Hn. rewrite Z.pow_succ_r by done.
  rewrite Z.rem_mul_r by lia. rewrite Zmod_odd. by destruct (Z.odd i).
Qed.

Lemma gather_scatter idxs i v :
  NoDup idxs → (∀ idx, idx ∈ idxs → 0 ≤ idx) →
  gather idxs (scatter idxs i v) = i mod 2 ^ Z.of_nat (length idxs).
Proof.
  intros Hnd. revert i v. induction Hnd as [|idx idxs Hidx Hnd IH]; intros i v Hpos.
  - simpl. by rewrite Z.mod_1_r.
  - assert (0 ≤ idx) by (apply Hpos; left).
    simpl gather. simpl length. rewrite Nat2Z.inj_succ, mod_pow2_succ by lia.
    rewrite IH by (intros; apply Hpos; by right).
    rewrite scatter_outside by (try done; intros; apply Hpos; by right).
    destruct (Z.odd i); rewrite ?setbit_bits, ?clearbit_bits, Z.eqb_refl by done;
      simpl; [done | by rewrite andb_false_r].
Qed.

Lemma odd_b2z_double (b : bool) g : Z.odd (Z.b2z b + 2 * g) = b.
Proof. rewrite Z.odd_add_mul_2. by destruct b. Qed.

Lemma half_b2z_double (b : bool) g : (Z.b2z b + 2 * g) / 2 = g.
Proof. destruct b; simpl Z.b2z; Z.div_mod_to_equations; lia. Qed.

Lemma scatter_gather_bits idxs u v p :
  (∀ idx, idx ∈ idxs → 0 ≤ idx) → 0 ≤ p →
  Z.testbit (scatter idxs (gather idxs u) v) p
  = if decide (p ∈ idxs) then Z.testbit u p else Z.testbit v p.
Proof.
  revert v. induction idxs as [|idx idxs IH]; intros v Hpos Hp.
  - destruct (decide (p ∈ [])) as [Hin|Hin]; [by apply elem_of_nil in Hin | done].
  - assert (0 ≤ idx) by (apply Hpos; left).
    simpl. rewrite odd_b2z_double, half_b2z_double.
    rewrite IH by (try done; intros; apply Hpos; by right).
    destruct (decide (p ∈ idxs)) as [Hin|Hin].
    + rewrite decide_True; [done | by right].
    + destruct (decide (p = idx)) as [->|Hne].
      * rewrite decide_True by left.
        destruct (Z.testbit u idx) eqn:E; rewrite ?setbit_bits, ?clearbit_bits, Z.eqb_refl by done;
          simpl; [done | by rewrite andb_false_r].
      * rewrite decide_False by (rewrite elem_of_cons; tauto).
        destruct (Z.testbit u idx); rewrite ?setbit_bits, ?clearbit_bits by done;
          case_cmp; simpl; try done; try lia; by rewrite andb_true_r.
Qed.

(** The value that round [i] of the outer loop of [concretization] pushes. *)
Lemma concreteValue_spec kb w i :
  BitWidth (Zero kb) = w → BitWidth (One kb) = w →
  concreteValue kb (unknownBits kb) i
  = Some (mkAPInt w (scatter (unknownBits kb) i (Val (One kb)))).
Proof.
  intros Hw0 Hw1. unfold concreteValue. rewrite assignBits_spec.
  - simpl. by rewrite Hw1.
  - intros idx Hidx. apply unknownBits_spec in Hidx. lia.
Qed.

Lemma numUnknown_nonneg kb : 0 ≤ numUnknown kb.
Proof. unfold numUnknown. lia. Qed.

(** [concretization] as a list comprehension. *)
Lemma concretization_spec kb w :
  hasWidth w kb → numUnknown kb < 64 →
  concretization kb
  = Some ((λ i, mkAPInt w (scatter (unknownBits kb) i (Val (One kb))))
            <$> seqZ 0 (2 ^ numUnknown kb)).
Proof.
  intros (Hwf0 & Hwf1 & Hw0 & Hw1) Hk. unfold concretization, KnownBits.getBitWidth.
  rewrite Hw0, Hw1, Z.eqb_refl. simpl.
  rewrite unknownIndexes_spec by (try done; destruct Hwf0; lia). simpl.
  fold (numUnknown kb). rewrite shl64_one by (pose proof (numUnknown_nonneg kb); lia).
  simpl. rewrite forM_push_back.
  erewrite mapM_total; [done|]. intros i _. by apply concreteValue_spec.
Qed.

Lemma concrete_isValue kb w i :
  hasWidth w kb →
  isValue w (mkAPInt w (scatter (unknownBits kb) i (Val (One kb)))).
Proof.
  intros (Hwf0 & Hwf1 & Hw0 & Hw1). destruct Hwf0 as [Hw _], Hwf1 as [_ Hv].
  rewrite Hw0 in Hw. rewrite Hw1 in Hv.
  split; [|done]. split; [done|]. simpl.
  apply bits_bounded; [lia|]. intros b Hb.
  rewrite scatter_outside.
  - by apply (bounded_bits w).
  - intros idx Hidx. apply unknownBits_spec in Hidx. lia.
  - intros Hin. apply unknownBits_spec in Hin. lia.
Qed.

Lemma noConflict_bits kb k :
  noConflict kb → bit (Zero kb) k = true → bit (One kb) k = false.
Proof.
  unfold noConflict, bit. intros Hnc Hz.
  assert (Z.testbit (Z.land (Val (Zero kb)) (Val (One kb))) k = false) as Hl
    by (rewrite Hnc; apply Z.bits_0).
  rewrite Z.land_spec, Hz in Hl. done.
Qed.

Lemma concrete_consistent kb i :
  noConflict kb →
  consistent (mkAPInt (BitWidth (Zero kb)) (scatter (unknownBits kb) i (Val (One kb)))) kb.
Proof.
  intros Hnc k Hk. unfold bit at 2 4. simpl.
  assert (∀ idx, idx ∈ unknownBits kb → 0 ≤ idx) as Hpos
    by (intros idx Hidx; apply unknownBits_spec in Hidx; lia).
  split; intros Hb.
  - rewrite scatter_outside; [by apply noConflict_bits | done |].
    intros Hin. apply unknownBits_spec in Hin as [_ Hu].
    unfold isUnknown in Hu. rewrite Hb in Hu. done.
  - rewrite scatter_outside; [done | done |].
    intros Hin. apply unknownBits_spec in Hin as [_ Hu].
    unfold isUnknown in Hu. rewrite Hb, andb_false_r in Hu. done.
Qed.

(** A consistent value is the one pushed in the round whose index packs
    its bits at the unknown positions. *)
Lemma consistent_concrete kb w v :
  hasWidth w kb → noConflict kb → isValue w v → consistent v kb →
  mkAPInt w (scatter (unknownBits kb) (gather (unknownBits kb) (Val v)) (Val (One kb))) = v.
Proof.
  intros (Hwf0 & Hwf1 & Hw0 & Hw1) Hnc [[Hw Hv] Hwv] Hcons.
  destruct v as [vw vv]. simpl in *. subst vw. f_equal.
  apply Z.bits_inj'. intros p Hp.
  rewrite scatter_gather_bits;
    [|intros idx Hidx; apply unknownBits_spec in Hidx; lia | done].
  destruct (decide (p ∈ unknownBits kb)) as [Hin|Hin]; [done|].
  destruct (Z.lt_ge_cases p w) as [Hlt|Hge].
  - destruct (Hcons p Hp) as [Hz Ho]. unfold bit in *. simpl in *.
    destruct (Z.testbit (Val (One kb)) p) eqn:Eo; [symmetry; by apply Ho|].
    destruct (Z.testbit (Val (Zero kb)) p) eqn:Ez; [symmetry; by apply Hz|].
    exfalso. apply Hin. apply unknownBits_spec. split; [lia|].
    unfold isUnknown, bit. by rewrite Ez, Eo.
  - destruct Hwf1 as [_ Ho]. rewrite Hw1 in Ho.
    rewrite (bounded_bits w (Val (One kb)) p), (bounded_bits w vv p) by done. done.
Qed.

(** Membership in the result of [concretization]. *)
Lemma concretization_elem_of kb w l v :
  hasWidth w kb → noConflict kb → numUnknown kb < 64 →
  concretization kb = Some l →
  v ∈ l ↔ isValue w v ∧ consistent v kb.
Proof.
  intros Hwf Hnc Hk Hl. rewrite (concretization_spec kb w) in Hl by done.
  simplify_eq. rewrite list_elem_of_fmap. split.
  - intros (i & -> & _). split; [by apply concrete_isValue|].
    destruct Hwf as (_ & _ & <- & _). by apply concrete_consistent.
  - intros [Hv Hc]. exists (gather (unknownBits kb) (Val v)). split.
    + symmetry. by apply consistent_concrete.
    + apply elem_of_seqZ. pose proof (gather_range (unknownBits kb) (Val v)) as Hg.
      fold (numUnknown kb) in Hg. lia.
Qed.

Lemma concretization_NoDup kb w l :
  hasWidth w kb → numUnknown kb < 64 →
  concretization kb = Some l → NoDup l.
Proof.
  intros Hwf Hk Hl. rewrite (concretization_spec kb w) in Hl by done. simplify_eq.
  apply NoDup_fmap_2_strong; [|apply NoDup_seqZ].
  intros i j Hi Hj Heq. apply elem_of_seqZ in Hi, Hj.
  assert (∀ idx, idx ∈ unknownBits kb → 0 ≤ idx) as Hpos
    by (intros idx Hidx; apply unknownBits_spec in Hidx; lia).
  apply (f_equal (λ a, gather (unknownBits kb) (Val a))) in Heq. simpl in Heq.
  rewrite !gather_scatter in Heq by (try done; apply unknownBits_NoDup).
  fold (numUnknown kb) in Heq. rewrite !Z.mod_small in Heq by lia. done.
Qed.

Lemma concretization_length kb w l :
  hasWidth w kb → numUnknown kb < 64 →
  concretization kb = Some l → Z.of_nat (length l) = 2 ^ numUnknown kb.
Proof.
  intros Hwf Hk Hl. rewrite (concretization_spec kb w) in Hl by done. simplify_eq.
  rewrite length_fmap, length_seqZ, Z2Nat.id; [done|].
  apply Z.pow_nonneg. lia.
Qed.

Lemma concretization_known kb w :
  hasWidth w kb → numUnknown kb = 0 → concretization kb = Some [One kb].
Proof.
  intros Hwf Hk. rewrite (concretization_spec kb w) by (try done; lia).
  rewrite Hk. change (seqZ 0 (2 ^ 0)) with [0]. simpl.
  unfold numUnknown in Hk. destruct (unknownBits kb); [|simpl in Hk; lia].
  simpl. destruct Hwf as (_ & _ & _ & <-). by destruct (One kb).
Qed.

(** ** Abstraction *)

Lemma not_bits v w p :
  0 ≤ w → 0 ≤ p →
  Z.testbit (Z.land (Z.lnot v) (Z.ones w)) p = (p <? w) && negb (Z.testbit v p).
Proof.
  intros Hw Hp. rewrite Z.land_spec, Z.lnot_spec, Z.testbit_ones_nonneg by done.
  apply andb_comm.
Qed.

(** The loop of [abstraction]: the masks that come out are the masks that
    went in, narrowed by every value. *)
Lemma absorb_loop w values knownZero knownOne :
  0 ≤ w → BitWidth knownZero = w → BitWidth knownOne = w →
  Forall (λ v, BitWidth v = w) values →
  ∃ knownZero' knownOne',
    forM (absorb w) values (knownZero, knownOne) = Some (knownZero', knownOne') ∧
    BitWidth knownZero' = w ∧ BitWidth knownOne' = w ∧
    ∀ p, 0 ≤ p →
      bit knownZero' p = bit knownZero p && forallb (λ v, (p <? w) && negb (bit v p)) values ∧
      bit knownOne' p = bit knownOne p && forallb (λ v, bit v p) values.
Proof.
  intros Hw Hwz Hwo Hvs. revert knownZero knownOne Hwz Hwo.
  induction Hvs as [|v values Hv _ IH]; intros knownZero knownOne Hwz Hwo.
  - exists knownZero, knownOne. repeat split; try done; simpl; by rewrite andb_true_r.
  - simpl forM. unfold absorb at 1, APInt.and. simpl.
    rewrite Hv, Hwz, Hwo, !Z.eqb_refl. simpl.
    edestruct IH as (kz & ko & -> & Hkz & Hko & Hbits); [done | done |].
    exists kz, ko. split; [done|]. split; [done|]. split; [done|]. intros p Hp.
    destruct (Hbits p Hp) as [Hz Ho]. rewrite Hz, Ho. unfold bit. cbn [Val forallb].
    rewrite (Z.land_spec (Val knownZero)), (Z.land_spec (Val knownOne)).
    rewrite not_bits by done.
    by rewrite !andb_assoc.
Qed.

Lemma forallb_guard (c : bool) (f : APInt → bool) values :
  values ≠ [] → forallb (λ v, c && f v) values = c && forallb f values.
Proof.
  intros Hne. induction values as [|v values IH]; [done|]. simpl.
  destruct values as [|v' values].
  - simpl. by rewrite !andb_true_r.
  - rewrite IH by done. destruct c, (f v); done.
Qed.

(** [abstraction] of [testMulhs.cpp], bit by bit. *)
Lemma abstraction_spec values w :
  0 ≤ w → values ≠ [] → Forall (λ v, BitWidth v = w) values →
  ∃ kb, abstraction values = Some kb ∧
        BitWidth (Zero kb) = w ∧ BitWidth (One kb) = w ∧
        ∀ p, 0 ≤ p →
          bit (Zero kb) p = (p <? w) && forallb (λ v, negb (bit v p)) values ∧
          bit (One kb) p = (p <? w) && forallb (λ v, bit v p) values.
Proof.
  intros Hw Hne Hvs. unfold abstraction.
  rewrite bool_decide_eq_false_2 by done. simpl.
  destruct values as [|first values]; [done|]. change (head (first :: values)) with (Some first). cbn [mbind option_bind check negb].
  apply Forall_cons_1 in Hvs as Hfirst. destruct Hfirst as [Hfirst _]. rewrite Hfirst.
  destruct (absorb_loop w (first :: values) (APInt.getAllOnes w) (APInt.getAllOnes w))
    as (kz & ko & Hrun & Hkz & Hko & Hbits); [done..|].
  rewrite Hrun. simpl. eexists. split; [done|]. simpl.
  split; [done|]. split; [done|]. intros p Hp.
  destruct (Hbits p Hp) as [Hz Ho]. rewrite Hz, Ho, forallb_guard by done.
  assert (bit (APInt.getAllOnes w) p = (p <? w)) as ->
    by (unfold bit; simpl; by rewrite Z.testbit_ones_nonneg).
  split; [by destruct (p <? w) | done].
Qed.

(** [abstraction] of [main.cpp], bit by bit: no position is ever marked Zero. *)
Lemma main_abstraction_spec values w :
  0 ≤ w → values ≠ [] → Forall (λ v, BitWidth v = w) values →
  ∃ kb, MainCpp.abstraction values = Some kb ∧
        BitWidth (Zero kb) = w ∧ BitWidth (One kb) = w ∧
        ∀ p, 0 ≤ p →
          bit (Zero kb) p = false ∧
          bit (One kb) p = (p <? w) && forallb (λ v, bit v p) values.
Proof.
  intros Hw Hne Hvs. unfold MainCpp.abstraction.
  rewrite bool_decide_eq_false_2 by done. simpl.
  destruct values as [|first values]; [done|]. change (head (first :: values)) with (Some first). cbn [mbind option_bind check negb].
  apply Forall_cons_1 in Hvs as Hfirst. destruct Hfirst as [Hfirst _]. rewrite Hfirst.
  destruct (absorb_loop w (first :: values) (APInt.getZero w) (APInt.getAllOnes w))
    as (kz & ko & Hrun & Hkz & Hko & Hbits); [done..|].
  rewrite Hrun. simpl. eexists. split; [done|]. simpl.
  split; [done|]. split; [done|]. intros p Hp.
  destruct (Hbits p Hp) as [Hz Ho]. rewrite Hz, Ho.
  assert (bit (APInt.getAllOnes w) p = (p <? w)) as ->
    by (unfold bit; simpl; by rewrite Z.testbit_ones_nonneg).
  assert (bit (APInt.getZero w) p = false) as -> by (unfold bit; simpl; apply Z.bits_0).
  done.
Qed.

Lemma absorb_loop_widths w values st st' :
  forM (absorb w) values st = Some st' → Forall (λ v, BitWidth v = w) values.
Proof.
  revert st. induction values as [|v values IH]; intros [kz ko] Hrun; [constructor|].
  simpl in Hrun. destruct (Z.eqb_spec (BitWidth v) w) as [Hv|]; [|done].
  simpl in Hrun. destruct (APInt.and kz (APInt.not v)); [|done].
  simpl in Hrun. destruct (APInt.and ko v); [|done].
  simpl in Hrun. constructor; [done|]. by eapply IH.
Qed.

(** [abstraction] returns only on a nonempty vector of values of one width. *)
Lemma abstraction_Some_inv values kb :
  abstraction values = Some kb →
  values ≠ [] ∧ ∃ w, Forall (λ v, BitWidth v = w) values.
Proof.
  unfold abstraction. intros Habs.
  destruct values as [|first values]; [done|]. split; [done|].
  exists (BitWidth first).
  rewrite bool_decide_eq_false_2 in Habs by done.
  change (head (first :: values)) with (Some first) in Habs.
  cbn [mbind option_bind check negb] in Habs.
  destruct (forM (absorb (BitWidth first)) (first :: values) _) as [st|] eqn:Hrun;
    [|done].
  by eapply absorb_loop_widths.
Qed.

Lemma forallb_elem_of {A : Type} (f : A → bool) (l : list A) :
  forallb f l = true ↔ ∀ x, x ∈ l → f x = true.
Proof.
  rewrite forallb_forall. split; intros H x Hx; apply H; by apply list_elem_of_In.
Qed.

(** The bit-by-bit reading of [abstraction] in words: a position is marked
    Zero exactly when every value has it clear, One exactly when every value
    has it set. *)
Lemma abstraction_best values w :
  0 ≤ w → values ≠ [] → Forall (λ v, BitWidth v = w) values →
  ∃ kb, abstraction values = Some kb ∧
        BitWidth (Zero kb) = w ∧ BitWidth (One kb) = w ∧
        ∀ p, 0 ≤ p →
          (bit (Zero kb) p = true ↔ p < w ∧ ∀ v, v ∈ values → bit v p = false) ∧
          (bit (One kb) p = true ↔ p < w ∧ ∀ v, v ∈ values → bit v p = true).
Proof.
  intros Hw Hne Hvs.
  destruct (abstraction_spec values w Hw Hne Hvs) as (kb & Habs & Hw0 & Hw1 & Hbits).
  exists kb. split; [done|]. split; [done|]. split; [done|]. intros p Hp.
  destruct (Hbits p Hp) as [-> ->].
  rewrite !andb_true_iff, !forallb_elem_of, !Z.ltb_lt.
  setoid_rewrite negb_true_iff. done.
Qed.

(** What follows from that reading alone. *)
Section BestAbstraction.

Variables (w : Z) (values : list APInt) (kb : KnownBits).

Hypothesis best :
  ∀ p, 0 ≤ p →
    (bit (Zero kb) p = true ↔ p < w ∧ ∀ v, v ∈ values → bit v p = false) ∧
    (bit (One kb) p = true ↔ p < w ∧ ∀ v, v ∈ values → bit v p = true).

Lemma best_hasWidth :
  0 ≤ w < 2 ^ 32 → BitWidth (Zero kb) = w → BitWidth (One kb) = w → hasWidth w kb.
Proof.
  intros Hw Hw0 Hw1.
  assert (0 ≤ Val (Zero kb) < 2 ^ w ∧ 0 ≤ Val (One kb) < 2 ^ w) as [? ?].
  { split; apply bits_bounded; try lia; intros b Hb;
      destruct (best b) as [Hz Ho]; try lia; unfold bit in *;
      apply not_true_is_false; intros Ht; [apply Hz in Ht | apply Ho in Ht]; lia. }
  unfold hasWidth, wfAPInt. rewrite Hw0, Hw1. done.
Qed.

Lemma best_noConflict : values ≠ [] → noConflict kb.
Proof.
  intros Hne. destruct values as [|v vs] eqn:Hvs; [done|].
  apply Z.bits_inj'. intros p Hp. rewrite Z.land_spec, Z.bits_0.
  destruct (best p Hp) as [Hz Ho]. unfold bit in *.
  destruct (Z.testbit (Val (Zero kb)) p) eqn:Ez; [|done].
  destruct (Z.testbit (Val (One kb)) p) eqn:Eo; [|done].
  destruct Hz as [[_ Hz] _]; [done|]. destruct Ho as [[_ Ho] _]; [done|].
  assert (v ∈ v :: vs) as Hv by left.
  specialize (Hz v Hv). specialize (Ho v Hv). congruence.
Qed.

Lemma best_consistent v : v ∈ values → consistent v kb.
Proof.
  intros Hv p Hp. destruct (best p Hp) as [Hz Ho].
  split; intros Hb; [apply Hz in Hb | apply Ho in Hb]; destruct Hb as [_ Hb]; by apply Hb.
Qed.

End BestAbstraction.

(** ** Round trip *)

Lemma One_consistent kb : noConflict kb → consistent (One kb) kb.
Proof.
  intros Hnc p Hp. split; [|done]. by apply noConflict_bits.
Qed.

Lemma setbit_consistent kb w p :
  hasWidth w kb → 0 ≤ p < w → bit (Zero kb) p = false →
  noConflict kb →
  let v := mkAPInt w (Z.setbit (Val (One kb)) p) in
  isValue w v ∧ consistent v kb ∧ bit v p = true.
Proof.
  intros (Hwf0 & Hwf1 & Hw0 & Hw1) Hp Hz Hnc v. subst v.
  destruct Hwf1 as [Hw Hv]. rewrite Hw1 in Hw, Hv.
  assert (0 ≤ Z.setbit (Val (One kb)) p < 2 ^ w) as Hb.
  { apply bits_bounded; [lia|]. intros b Hb.
    rewrite setbit_bits, (bounded_bits w) by (done || lia). case_cmp; [lia | done]. }
  split; [done|]. split.
  - intros k Hk. unfold bit at 2 4. simpl. rewrite setbit_bits by lia. split.
    + intros Hzk. fold (bit (One kb) k). rewrite noConflict_bits by done.
      case_cmp; [|done]. subst. congruence.
    + intros Hok. unfold bit in Hok. rewrite Hok. apply orb_true_r.
  - unfold bit. simpl. rewrite setbit_bits, Z.eqb_refl by lia. done.
Qed.

Lemma KnownBits_eq (a b : KnownBits) :
  BitWidth (Zero a) = BitWidth (Zero b) → BitWidth (One a) = BitWidth (One b) →
  (∀ p, 0 ≤ p → (bit (Zero a) p = true ↔ bit (Zero b) p = true) ∧
                 (bit (One a) p = true ↔ bit (One b) p = true)) →
  a = b.
Proof.
  destruct a as [[zw zv] [ow ov]], b as [[zw' zv'] [ow' ov']]. unfold bit. simpl.
  intros -> -> Hbits.
  assert (zv = zv') as -> by (apply Z.bits_inj'; intros p Hp; apply eq_iff_eq_true, Hbits, Hp).
  assert (ov = ov') as -> by (apply Z.bits_inj'; intros p Hp; apply eq_iff_eq_true, Hbits, Hp).
  done.
Qed.

Lemma roundtrip kb w :
  hasWidth w kb → noConflict kb → numUnknown kb < 64 →
  ∃ l, concretization kb = Some l ∧ abstraction l = Some kb.
Proof.
  intros Hwf Hnc Hk.
  pose proof (concretization_spec kb w Hwf Hk) as Hl.
  set (l := _ <$> _) in Hl. exists l. split; [done|].
  pose proof (λ v, concretization_elem_of kb w l v Hwf Hnc Hk Hl) as Hin.
  assert (Hsz := Hwf). destruct Hsz as (Hwf0 & Hwf1 & Hw0 & Hw1).
  assert (0 ≤ w < 2 ^ 32) as Hw by (destruct Hwf0; lia).
  assert (One kb ∈ l) as Hone.
  { apply Hin. split; [done | by apply One_consistent]. }
  destruct (abstraction_best l w) as (kb' & Habs & Hw0' & Hw1' & Hbits).
  - lia.
  - intros ->. by apply elem_of_nil in Hone.
  - apply Forall_forall. intros v Hv. apply Hin in Hv as [[_ Hv] _]. done.
  - rewrite Habs. f_equal. apply KnownBits_eq; [congruence | congruence |].
    intros p Hp. destruct (Hbits p Hp) as [Hz Ho]. rewrite Hz, Ho.
    assert (∀ a, wfAPInt a → BitWidth a = w → bit a p = true → p < w) as Hlow.
    { intros a [_ Ha] Haw Hap. rewrite Haw in Ha.
      destruct (Z.lt_ge_cases p w); [done|].
      unfold bit in Hap. rewrite (bounded_bits w (Val a) p) in Hap by done. done. }
    split; split.
    + intros [Hp' Hall]. apply not_false_iff_true. intros Hzp.
      destruct (bit (One kb) p) eqn:Eo.
      * specialize (Hall _ Hone). congruence.
      * destruct (setbit_consistent kb w p Hwf) as (Hv1 & Hv2 & Hv3); try done.
        specialize (Hall _ (proj2 (Hin _) (conj Hv1 Hv2))). congruence.
    + intros Hzp. split; [by apply (Hlow (Zero kb))|].
      intros v Hv. apply Hin in Hv as [_ Hc]. by apply (Hc p Hp).
    + intros [_ Hall]. apply (Hall _ Hone).
    + intros Hop. split; [by apply (Hlow (One kb))|].
      intros v Hv. apply Hin in Hv as [_ Hc]. by apply (Hc p Hp).
Qed.

(** ** The brute-force transfer function *)

(** The sign bit decides the two's-complement reading. *)
Lemma getSExtValue_signed w a :
  1 ≤ w → isValue w a → APInt.getSExtValue a = signedValue w (Val a).
Proof.
  intros Hw [[_ Hv] Hwa]. unfold APInt.getSExtValue, signedValue. rewrite Hwa in *.
  assert (2 ^ w = 2 * 2 ^ (w - 1)) as Hpow
    by (rewrite <- Z.pow_succ_r by lia; f_equal; lia).
  assert (0 < 2 ^ (w - 1)) as Hpos by (apply Z.pow_pos_nonneg; lia).
  destruct (Z.leb_spec (2 ^ (w - 1)) (Val a)) as [Hge|Hlt].
  - assert (Z.testbit (Val a) (w - 1) = true) as ->; [|done].
    apply Z.testbit_true; [lia|].
    assert (Val a / 2 ^ (w - 1) = 1) as -> by (Z.div_mod_to_equations; nia). done.
  - assert (Z.testbit (Val a) (w - 1) = false) as ->; [|done].
    apply Z.testbit_false; [lia|].
    rewrite Z.div_small by lia. done.
Qed.

(** Taking the product modulo [2 ^ (2 * w)] first does not change its bits
    from [w] to [2 * w - 1]. *)
Lemma high_half x w :
  0 ≤ w → (x mod 2 ^ (2 * w)) / 2 ^ w mod 2 ^ w = x / 2 ^ w mod 2 ^ w.
Proof.
  intros Hw. assert (0 < 2 ^ w) as Hpos by (apply Z.pow_pos_nonneg; lia).
  replace (2 ^ (2 * w)) with (2 ^ w * 2 ^ w)
    by (rewrite <- Z.pow_add_r by lia; f_equal; lia).
  rewrite Z.rem_mul_r by lia.
  rewrite (Z.mul_comm (2 ^ w)), Z.div_add by lia.
  rewrite (Z.div_small (x mod 2 ^ w)) by (apply Z.mod_pos_bound; lia).
  rewrite Z.add_0_l. apply Z.mod_mod. lia.
Qed.

Lemma mulhsPair_width bw cLhs cRhs h :
  mulhsPair bw cLhs cRhs = Some h → BitWidth h = bw.
Proof.
  unfold mulhsPair, APInt.sext, APInt.mul, APInt.extractBits. intros H.
  repeat (match type of H with
          | context [check ?b] => destruct b; simpl in H; [|done]
          end).
  by simplify_eq.
Qed.

(** [mulhsPair] returns only for widths from 1 to [2 ^ 31 - 1]. *)
Lemma mulhsPair_Some_width w cLhs cRhs h :
  0 ≤ w < 2 ^ 32 → BitWidth cLhs = w →
  mulhsPair w cLhs cRhs = Some h → 1 ≤ w < 2 ^ 31.
Proof.
  intros Hw Hl. unfold mulhsPair, APInt.sext, APInt.mul, APInt.extractBits.
  rewrite Hl. simpl. unfold wrap32.
  destruct (Z.leb_spec w ((2 * w) mod 2 ^ 32)) as [Hle|]; [|done]. simpl.
  destruct (Z.leb_spec (BitWidth cRhs) ((2 * w) mod 2 ^ 32)); [|done]. simpl.
  rewrite Z.eqb_refl. simpl.
  destruct (Z.ltb_spec w ((2 * w) mod 2 ^ 32)) as [Hlt|]; [|done]. intros _.
  destruct (Z.lt_ge_cases w (2 ^ 31)) as [|Hbig]; [|].
  - rewrite Z.mod_small in Hlt by lia. lia.
  - assert ((2 * w) mod 2 ^ 32 = 2 * w - 2 ^ 32) as Heq.
    { symmetry. apply (Z.mod_unique _ _ 1); lia. }
    lia.
Qed.

(** The high word computed through the [APInt] operations is the exact
    signed high multiplication. *)
Lemma mulhsPair_exact w cLhs cRhs :
  1 ≤ w < 2 ^ 31 → isValue w cLhs → isValue w cRhs →
  mulhsPair w cLhs cRhs = Some (mulhsExact w cLhs cRhs).
Proof.
  intros Hw Hl Hr. unfold mulhsPair, APInt.sext, APInt.mul, APInt.extractBits.
  rewrite !(getSExtValue_signed w) by (done || lia).
  destruct Hl as [_ Hl], Hr as [_ Hr]. rewrite Hl, Hr. unfold wrap32.
  rewrite (Z.mod_small (2 * w)) by lia.
  replace (w <=? 2 * w) with true by lia. simpl.
  rewrite Z.eqb_refl. simpl.
  replace (w <? 2 * w) with true by lia.
  rewrite (Z.mod_small (w + w)) by lia.
  replace (w + w <=? 2 * w) with true by lia. simpl.
  unfold mulhsExact. do 2 f_equal.
  rewrite Z.land_ones, Z.shiftr_div_pow2 by lia.
  rewrite <- Z.mul_mod by (apply Z.pow_nonzero; lia).
  apply high_half. lia.
Qed.

Lemma mulhsExact_isValue w lhs rhs : 0 ≤ w < 2 ^ 32 → isValue w (mulhsExact w lhs rhs).
Proof.
  intros Hw. unfold isValue, wfAPInt, mulhsExact. simpl.
  split; [|done]. split; [done|]. apply Z.mod_pos_bound, Z.pow_pos_nonneg; lia.
Qed.

(** [concretization] returns only when fewer than 64 bits are unknown. *)
Lemma concretization_Some_inv kb w l :
  hasWidth w kb → concretization kb = Some l → numUnknown kb < 64.
Proof.
  intros (Hwf0 & _ & Hw0 & Hw1). unfold concretization, KnownBits.getBitWidth.
  rewrite Hw0, Hw1, Z.eqb_refl. simpl.
  rewrite unknownIndexes_spec by (try done; destruct Hwf0; lia). simpl.
  unfold shl64, numUnknown.
  destruct (Z.ltb_spec (Z.of_nat (length (unknownBits kb))) 64); [done|]. simpl. done.
Qed.

Lemma concretization_isValue kb w l v :
  hasWidth w kb → concretization kb = Some l → v ∈ l → isValue w v.
Proof.
  intros Hwf Hl Hv.
  pose proof (concretization_Some_inv kb w l Hwf Hl) as Hk.
  rewrite (concretization_spec kb w) in Hl by done.
  simplify_eq. apply list_elem_of_fmap in Hv as (i & -> & _).
  by apply concrete_isValue.
Qed.

Lemma concretization_nonempty kb w l :
  hasWidth w kb → concretization kb = Some l → l ≠ [].
Proof.
  intros Hwf Hl.
  pose proof (concretization_Some_inv kb w l Hwf Hl) as Hk.
  pose proof (concretization_length kb w l Hwf Hk Hl) as Hlen.
  intros ->. simpl in Hlen.
  assert (0 < 2 ^ numUnknown kb) by (apply Z.pow_pos_nonneg; pose proof (numUnknown_nonneg kb); lia).
  lia.
Qed.

Lemma forM_ext {A S : Type} (f g : A → S → option S) (l : list A) (s : S) :
  (∀ x t, f x t = g x t) → forM f l s = forM g l s.
Proof.
  intros Hfg. revert s. induction l as [|x l IH]; intros s; simpl; [done|].
  rewrite Hfg. destruct (g x s); simpl; [apply IH | done].
Qed.

(** The two nested loops of [naiveMulhs] build the products row by row. *)
Lemma naiveMulhs_unfold lhs rhs w :
  hasWidth w lhs → hasWidth w rhs →
  naiveMulhs lhs rhs
  = concreteLhs ← concretization lhs;
    concreteRhs ← concretization rhs;
    rows ← mapM (λ cLhs, mapM (mulhsPair w cLhs) concreteRhs) concreteLhs;
    abstraction (concat rows).
Proof.
  intros (_ & _ & Hl0 & Hl1) (_ & _ & Hr0 & Hr1).
  unfold naiveMulhs, KnownBits.getBitWidth.
  rewrite Hl0, Hl1, Hr0, Hr1, !Z.eqb_refl. simpl. rewrite Z.eqb_refl. simpl.
  destruct (concretization lhs) as [cl|]; [|reflexivity]. simpl.
  destruct (concretization rhs) as [cr|]; [|reflexivity]. simpl.
  rewrite (forM_ext _ (λ cLhs cfResult,
             row ← mapM (mulhsPair w cLhs) cr; Some (cfResult ++ row)))
    by (intros; apply forM_push_back).
  rewrite forM_push_back_all.
  destruct (mapM _ cl) as [rows|]; reflexivity.
Qed.

Lemma elem_of_concat {A : Type} (x : A) (ls : list (list A)) :
  x ∈ concat ls ↔ ∃ l, l ∈ ls ∧ x ∈ l.
Proof.
  rewrite list_elem_of_In, in_concat. setoid_rewrite list_elem_of_In. done.
Qed.

Lemma mapM_elem_of_l {A B : Type} (f : A → option B) (l : list A) (k : list B) x :
  mapM f l = Some k → x ∈ l → ∃ y, f x = Some y ∧ y ∈ k.
Proof.
  intros Hm Hx. apply mapM_Some in Hm. apply list_elem_of_lookup in Hx as [i Hi].
  destruct (Forall2_lookup_l _ _ _ i x Hm Hi) as (y & Hy & Hfy).
  exists y. split; [done|]. by eapply list_elem_of_lookup_2.
Qed.

Lemma mapM_elem_of_r {A B : Type} (f : A → option B) (l : list A) (k : list B) y :
  mapM f l = Some k → y ∈ k → ∃ x, f x = Some y ∧ x ∈ l.
Proof.
  intros Hm Hy. apply mapM_Some in Hm. apply list_elem_of_lookup in Hy as [i Hi].
  destruct (Forall2_lookup_r _ _ _ i y Hm Hi) as (x & Hx & Hfx).
  exists x. split; [done|]. by eapply list_elem_of_lookup_2.
Qed.

(** Every pair of operands has its product among the rows, and the rows
    hold nothing else. *)
Lemma rows_complete w cl cr rows lhs rhs :
  mapM (λ cLhs, mapM (mulhsPair w cLhs) cr) cl = Some rows →
  lhs ∈ cl → rhs ∈ cr →
  ∃ h, mulhsPair w lhs rhs = Some h ∧ h ∈ concat rows.
Proof.
  intros Hrows Hl Hr.
  destruct (mapM_elem_of_l _ _ _ _ Hrows Hl) as (row & Hrow & Hin).
  destruct (mapM_elem_of_l _ _ _ _ Hrow Hr) as (h & Hh & Hhin).
  exists h. split; [done|]. apply elem_of_concat. eauto.
Qed.

Lemma rows_sound w cl cr rows h :
  mapM (λ cLhs, mapM (mulhsPair w cLhs) cr) cl = Some rows →
  h ∈ concat rows →
  ∃ lhs rhs, lhs ∈ cl ∧ rhs ∈ cr ∧ mulhsPair w lhs rhs = Some h.
Proof.
  intros Hrows Hh. apply elem_of_concat in Hh as (row & Hrow & Hh).
  destruct (mapM_elem_of_r _ _ _ _ Hrows Hrow) as (lhs & Hl & Hlin).
  destruct (mapM_elem_of_r _ _ _ _ Hl Hh) as (rhs & Hr & Hrin).
  eauto.
Qed.

(** What [abstraction] returned, read off one of its inputs. *)
Lemma abstraction_result values kb w :
  0 ≤ w → Forall (λ v, BitWidth v = w) values →
  abstraction values = Some kb →
  BitWidth (Zero kb) = w ∧ BitWidth (One kb) = w ∧
  ∀ p, 0 ≤ p →
    (bit (Zero kb) p = true ↔ p < w ∧ ∀ v, v ∈ values → bit v p = false) ∧
    (bit (One kb) p = true ↔ p < w ∧ ∀ v, v ∈ values → bit v p = true).
Proof.
  intros Hw Hvs Habs. destruct (abstraction_Some_inv _ _ Habs) as [Hne _].
  destruct (abstraction_best values w Hw Hne Hvs) as (kb' & Habs' & Hres).
  by simplify_eq.
Qed.

Lemma naiveMulhs_rows lhs rhs w r :
  hasWidth w lhs → hasWidth w rhs → naiveMulhs lhs rhs = Some r →
  ∃ cl cr rows,
    concretization lhs = Some cl ∧ concretization rhs = Some cr ∧
    mapM (λ cLhs, mapM (mulhsPair w cLhs) cr) cl = Some rows ∧
    abstraction (concat rows) = Some r ∧
    Forall (λ v, BitWidth v = w) (concat rows).
Proof.
  intros Hl Hr Hn. rewrite (naiveMulhs_unfold lhs rhs w) in Hn by done.
  destruct (concretization lhs) as [cl|]; [|done].
  destruct (concretization rhs) as [cr|]; [|done]. simpl in Hn.
  destruct (mapM _ cl) as [rows|] eqn:Hrows; [|done]. simpl in Hn.
  exists cl, cr, rows. repeat split; try done.
  apply Forall_forall. intros h Hh.
  destruct (rows_sound _ _ _ _ _ Hrows Hh) as (a & b & _ & _ & Hab).
  by eapply mulhsPair_width.
Qed.

(** Soundness of the brute-force transfer function. *)
Lemma naiveMulhs_sound lhs rhs w r cl cr a b :
  hasWidth w lhs → hasWidth w rhs →
  naiveMulhs lhs rhs = Some r →
  concretization lhs = Some cl → concretization rhs = Some cr →
  a ∈ cl → b ∈ cr →
  consistent (mulhsExact w a b) r.
Proof.
  intros Hl Hr Hn Hcl Hcr Ha Hb.
  destruct (naiveMulhs_rows lhs rhs w r Hl Hr Hn)
    as (cl' & cr' & rows & Hcl' & Hcr' & Hrows & Habs & Hws).
  simplify_eq.
  destruct (rows_complete _ _ _ _ _ _ Hrows Ha Hb) as (h & Hh & Hin).
  pose proof (concretization_isValue _ _ _ _ Hl Hcl Ha) as Hva.
  pose proof (concretization_isValue _ _ _ _ Hr Hcr Hb) as Hvb.
  assert (0 ≤ w < 2 ^ 32) as Hw by (destruct Hl as [[? _] (_ & <- & _)]; done).
  pose proof (mulhsPair_Some_width w a b h Hw (proj2 Hva) Hh) as Hw'.
  rewrite mulhsPair_exact in Hh by done. simplify_eq.
  destruct (abstraction_result _ _ w (proj1 Hw) Hws Habs) as (_ & _ & Hbits).
  by eapply best_consistent.
Qed.

(** The result of the brute-force transfer function is a conflict-free
    state of the operands' width. *)
Lemma naiveMulhs_result lhs rhs w r :
  hasWidth w lhs → hasWidth w rhs → naiveMulhs lhs rhs = Some r →
  hasWidth w r ∧ noConflict r.
Proof.
  intros Hl Hr Hn.
  destruct (naiveMulhs_rows lhs rhs w r Hl Hr Hn)
    as (cl & cr & rows & Hcl & Hcr & Hrows & Habs & Hws).
  assert (0 ≤ w < 2 ^ 32) as Hw by (destruct Hl as [[? _] (_ & <- & _)]; done).
  destruct (abstraction_result _ _ w (proj1 Hw) Hws Habs) as (Hw0 & Hw1 & Hbits).
  destruct (abstraction_Some_inv _ _ Habs) as [Hne _].
  split; [by eapply best_hasWidth | by eapply best_noConflict].
Qed.

(** The brute-force transfer function returns whenever each operand has
    fewer than 64 unknown bits and the doubled width fits an [unsigned]. *)
Lemma naiveMulhs_defined lhs rhs w :
  hasWidth w lhs → hasWidth w rhs →
  numUnknown lhs < 64 → numUnknown rhs < 64 → 1 ≤ w < 2 ^ 31 →
  is_Some (naiveMulhs lhs rhs).
Proof.
  intros Hl Hr Hkl Hkr Hw. rewrite (naiveMulhs_unfold lhs rhs w) by done.
  destruct (concretization lhs) as [cl|] eqn:Hcl;
    [|by rewrite (concretization_spec lhs w) in Hcl].
  destruct (concretization rhs) as [cr|] eqn:Hcr;
    [|by rewrite (concretization_spec rhs w) in Hcr].
  simpl.
  rewrite (mapM_total _ (λ cLhs, mulhsExact w cLhs <$> cr)); last first.
  { intros a Ha. apply mapM_total. intros b Hb. apply mulhsPair_exact; [done|..].
    - by apply (concretization_isValue lhs w cl).
    - by apply (concretization_isValue rhs w cr). }
  simpl.
  pose proof (concretization_nonempty _ _ _ Hl Hcl) as Hnel.
  pose proof (concretization_nonempty _ _ _ Hr Hcr) as Hner.
  destruct cl as [|a cl]; [done|]. destruct cr as [|b cr]; [done|].
  destruct (abstraction_best (concat ((λ cLhs, mulhsExact w cLhs <$> b :: cr) <$> a :: cl)) w)
    as (kb & -> & _); [lia | done | | done].
  apply Forall_forall. intros h Hh. apply elem_of_concat in Hh as (row & Hrow & Hh).
  apply list_elem_of_fmap in Hrow as (x & -> & _).
  apply list_elem_of_fmap in Hh as (y & -> & _). done.
Qed.

(** ** The comparison engine *)

Lemma contradictsAt_spec w composite naive k :
  BitWidth (Zero composite) = w → BitWidth (One composite) = w →
  BitWidth (Zero naive) = w → BitWidth (One naive) = w →
  k < w →
  contradictsAt composite naive k = Some (contradiction composite naive k).
Proof.
  intros Hcz Hco Hnz Hno Hk. unfold contradictsAt, APInt.getBit, contradiction, bit.
  rewrite Hcz, Hco, Hnz, Hno. replace (k <? w) with true by lia. simpl.
  destruct (Z.testbit (Val (Zero composite)) k); simpl;
    [destruct (Z.testbit (Val (One naive)) k); simpl; [done|]|];
    by destruct (Z.testbit (Val (One composite)) k).
Qed.

Lemma isIncomparable_spec w composite naive ks :
  BitWidth (Zero composite) = w → BitWidth (One composite) = w →
  BitWidth (Zero naive) = w → BitWidth (One naive) = w →
  (∀ k, k ∈ ks → k < w ∧ k < 2 ^ 31) →
  isIncomparable ks composite naive = Some (existsb (contradiction composite naive) ks).
Proof.
  intros Hcz Hco Hnz Hno. induction ks as [|k ks IH]; intros Hks; [done|].
  destruct (Hks k) as [Hk Hk31]; [left|].
  simpl. replace (k <? 2 ^ 31) with true by lia. simpl.
  rewrite (contradictsAt_spec w) by done. simpl.
  destruct (contradiction composite naive k); simpl; [done|].
  apply IH. intros k' Hk'. apply Hks. by right.
Qed.

Lemma contradictory_existsb w reference naive :
  existsb (contradiction reference naive) (seqZ 0 w) = true ↔ contradictory w reference naive.
Proof.
  rewrite existsb_exists. unfold contradictory, contradiction. split.
  - intros (k & Hk & Hc). apply list_elem_of_In, elem_of_seqZ in Hk.
    exists k. split; [lia|].
    apply orb_true_iff in Hc. by rewrite !andb_true_iff in Hc.
  - intros (k & Hk & Hc). exists k. split.
    + apply list_elem_of_In, elem_of_seqZ. lia.
    + apply orb_true_iff. by rewrite !andb_true_iff.
Qed.

Lemma countPopulation_range a :
  0 ≤ BitWidth a → 0 ≤ APInt.countPopulation a ≤ BitWidth a.
Proof.
  intros Hw. unfold APInt.countPopulation. split; [lia|].
  pose proof (length_filter (λ i, Z.testbit (Val a) i = true) (seqZ 0 (BitWidth a))) as Hlen.
  rewrite length_seqZ in Hlen. lia.
Qed.

(** For widths an [int] can count, the 32-bit sum of the two population
    counts is the precision count. *)
Lemma precision_exact w kb :
  0 ≤ w ≤ 2 ^ 31 - 1 → BitWidth (Zero kb) = w → BitWidth (One kb) = w →
  precision kb = precisionCount kb.
Proof.
  intros Hw Hz Ho. unfold precision, precisionCount, wrap32.
  pose proof (countPopulation_range (Zero kb)). pose proof (countPopulation_range (One kb)).
  apply Z.mod_small. lia.
Qed.

(** One round of the pair loop, by cases. *)
Lemma comparePair_spec w reference naive c :
  0 ≤ w ≤ 2 ^ 31 - 1 →
  BitWidth (Zero reference) = w → BitWidth (One reference) = w →
  BitWidth (Zero naive) = w → BitWidth (One naive) = w →
  ∃ v, comparePair w reference naive c = Some (tally v c) ∧
       (v = Incomparable ↔ contradictory w reference naive) ∧
       (v = ReferencePreciser ↔
          ¬ contradictory w reference naive ∧ precisionCount naive < precisionCount reference) ∧
       (v = NaivePreciser ↔
          ¬ contradictory w reference naive ∧ precisionCount reference < precisionCount naive) ∧
       (v = Equal ↔
          ¬ contradictory w reference naive ∧ precisionCount reference = precisionCount naive).
Proof.
  intros Hw Hrz Hro Hnz Hno. unfold comparePair.
  rewrite (isIncomparable_spec w) by (try done; intros k Hk; apply elem_of_seqZ in Hk; lia).
  simpl. rewrite !(precision_exact w) by done.
  pose proof (contradictory_existsb w reference naive) as Hex.
  destruct (existsb _ _).
  - exists Incomparable. split; [done|].
    assert (contradictory w reference naive) by by apply Hex.
    repeat split; try done; intros [? _]; done.
  - assert (¬ contradictory w reference naive) as Hnot
      by (intros Hc; apply Hex in Hc; done).
    destruct (Z.ltb_spec (precisionCount naive) (precisionCount reference));
      [|destruct (Z.ltb_spec (precisionCount reference) (precisionCount naive))].
    + exists ReferencePreciser. split; [done|].
      repeat split; try done; try lia; intros [_ ?]; lia.
    + exists NaivePreciser. split; [done|].
      repeat split; try done; try lia; intros [_ ?]; lia.
    + exists Equal. split; [done|].
      repeat split; try done; try lia; intros [_ ?]; lia.
Qed.

Lemma bump_range n : 0 ≤ bump n < 2 ^ 64.
Proof. unfold bump, wrap64. apply Z.mod_pos_bound. lia. Qed.

Lemma bump_small n : 0 ≤ n → n + 1 < 2 ^ 64 → bump n = n + 1.
Proof. intros. unfold bump, wrap64. apply Z.mod_small. lia. Qed.

(** A round keeps every counter in range, and adds one to their sum as
    long as the sum fits. *)
Lemma tally_step v c :
  countersInRange c →
  countersInRange (tally v c) ∧
  (counterSum c + 1 < 2 ^ 64 → counterSum (tally v c) = counterSum c + 1).
Proof.
  intros (H1 & H2 & H3 & H4). unfold countersInRange, counterSum.
  destruct v; simpl; (split; [repeat split; try apply bump_range; lia|]);
    intros Hsum; rewrite bump_small by lia; lia.
Qed.

Lemma numUnknown_le kb : 0 ≤ BitWidth (Zero kb) → numUnknown kb ≤ BitWidth (Zero kb).
Proof.
  intros Hw. unfold numUnknown, unknownBits.
  pose proof (length_filter (λ k, isUnknown kb k = true) (seqZ 0 (BitWidth (Zero kb)))) as Hlen.
  rewrite length_seqZ in Hlen. lia.
Qed.

Section PairLoop.

Variables (mulhs : KnownBits → KnownBits → KnownBits) (w : Z).

Hypothesis reference_width : keepsWidth w mulhs.
Hypothesis width_range : 1 ≤ w < 64.

(** One round of the pair loop: the naive result is there, and the round
    counts the verdict on the two results. *)
Lemma testPair_spec LHS RHS c :
  hasWidth w LHS → hasWidth w RHS →
  ∃ naive v,
    naiveMulhs LHS RHS = Some naive ∧
    testPair mulhs w LHS RHS c = Some (tally v c) ∧
    (v = Incomparable ↔ contradictory w (mulhs LHS RHS) naive) ∧
    (v = ReferencePreciser ↔
       ¬ contradictory w (mulhs LHS RHS) naive ∧
       precisionCount naive < precisionCount (mulhs LHS RHS)) ∧
    (v = NaivePreciser ↔
       ¬ contradictory w (mulhs LHS RHS) naive ∧
       precisionCount (mulhs LHS RHS) < precisionCount naive) ∧
    (v = Equal ↔
       ¬ contradictory w (mulhs LHS RHS) naive ∧
       precisionCount (mulhs LHS RHS) = precisionCount naive).
Proof.
  intros Hl Hr. unfold testPair.
  assert (numUnknown LHS < 64 ∧ numUnknown RHS < 64) as [Hkl Hkr].
  { destruct Hl as (_ & _ & Hl & _), Hr as (_ & _ & Hr & _).
    pose proof (numUnknown_le LHS). pose proof (numUnknown_le RHS). lia. }
  destruct (naiveMulhs_defined LHS RHS w) as [naive Hn]; [done.. | lia |].
  rewrite Hn. simpl.
  destruct (naiveMulhs_result LHS RHS w naive) as [(_ & _ & Hnz & Hno) _]; [done..|].
  destruct (reference_width LHS RHS Hl Hr) as [Hcz Hco].
  destruct (comparePair_spec w (mulhs LHS RHS) naive c) as (v & Hv & Hcases);
    [lia | done..|].
  exists naive, v. done.
Qed.

Lemma testPair_step LHS RHS c :
  hasWidth w LHS → hasWidth w RHS →
  ∃ v, testPair mulhs w LHS RHS c = Some (tally v c).
Proof.
  intros Hl Hr.
  destruct (testPair_spec LHS RHS c) as (naive & v & _ & Hv & _); eauto.
Qed.

(** The two nested loops over the pairs return; the counters stay in
    range, and their sum grows by the number of pairs as long as it fits. *)
Lemma pairs_loop states c0 :
  (∀ s, s ∈ states → hasWidth w s) →
  countersInRange c0 →
  let N := Z.of_nat (length states) in
  ∃ c, forM (λ LHS c, forM (λ RHS c, testPair mulhs w LHS RHS c) states c) states c0 = Some c ∧
       countersInRange c ∧
       (counterSum c0 + N * N < 2 ^ 64 → counterSum c = counterSum c0 + N * N).
Proof.
  intros Hst Hc0 N.
  pose (I := λ (n : Z) (c : Counters),
          countersInRange c ∧ (counterSum c0 + n < 2 ^ 64 → counterSum c = counterSum c0 + n)).
  assert (∀ n c v, 0 ≤ n → I n c → I (n + 1) (tally v c)) as Hstep.
  { intros n c v Hn [Hr Hs]. destruct (tally_step v c Hr) as [Hr' Hs'].
    split; [done|]. intros Hfit. rewrite Hs', Hs by lia. lia. }
  destruct (forM_invariant
              (λ LHS c, forM (λ RHS c, testPair mulhs w LHS RHS c) states c)
              (λ done c, I (Z.of_nat (length done) * N) c) states c0)
    as (c & Hrun & Hc).
  - split; [done|]. simpl. lia.
  - intros rows LHS c HL Hc.
    destruct (forM_invariant (λ RHS c, testPair mulhs w LHS RHS c)
                (λ done c', I (Z.of_nat (length rows) * N + Z.of_nat (length done)) c')
                states c) as (c' & Hrun & Hc').
    + simpl. by rewrite Z.add_0_r.
    + intros done RHS c' HR Hc'.
      destruct (testPair_step LHS RHS c') as [v Hv]; [by auto..|].
      exists (tally v c'). split; [done|].
      rewrite length_app. simpl length.
      replace (Z.of_nat (length rows) * N + Z.of_nat (length done + 1))
        with (Z.of_nat (length rows) * N + Z.of_nat (length done) + 1) by lia.
      apply Hstep; [lia | done].
    + exists c'. split; [done|]. rewrite length_app. simpl length.
      replace (Z.of_nat (length rows + 1) * N)
        with (Z.of_nat (length rows) * N + Z.of_nat (length states)) by lia.
      done.
  - exists c. split; [done|]. destruct Hc as [Hr Hs]. split; [done | apply Hs].
Qed.

End PairLoop.

Lemma pow3_fits w : 0 ≤ w → 3 ^ w < 2 ^ 64 → w < 64.
Proof.
  intros Hw H3. assert (2 ^ w ≤ 3 ^ w) by (apply Z.pow_le_mono_l; lia).
  apply (Z.pow_lt_mono_r_iff 2); lia.
Qed.

(** The states that [enumerateFromBitWidth] returns. *)
Lemma enumerate_states w l s :
  0 ≤ w < 2 ^ 32 → enumerateFromBitWidth w = Some l → s ∈ l →
  hasWidth w s ∧ noConflict s.
Proof.
  intros Hw Hl Hs. destruct (enumerate_spec w) as (l' & Hl' & Hst); [lia|].
  simplify_eq. apply list_elem_of_lookup in Hs as [j Hj].
  destruct (Forall2_lookup_r _ _ _ j s Hst Hj) as (i & _ & Hi).
  split; [by eapply ternaryState_hasWidth | by eapply ternaryState_noConflict].
Qed.

Lemma enumerate_length w l :
  0 ≤ w → enumerateFromBitWidth w = Some l → Z.of_nat (length l) = 3 ^ w mod 2 ^ 64.
Proof.
  intros Hw Hl. destruct (enumerate_spec w) as (l' & Hl' & Hst); [lia|].
  simplify_eq. apply Forall2_length in Hst. rewrite <- Hst, length_seqZ.
  rewrite Z2Nat.id; [done|]. apply Z.mod_pos_bound. lia.
Qed.

(** The whole run. *)
Lemma testMulhs_runs mulhs w :
  keepsWidth w mulhs → 1 ≤ w → 3 ^ w < 2 ^ 64 →
  ∃ r, testMulhsTransferFunctions mulhs w = Some r ∧
       reportBitWidth r = w ∧ totalKnownBits r = 3 ^ w ∧
       countersInRange (reportCounters r) ∧
       (3 ^ w * 3 ^ w < 2 ^ 64 → counterSum (reportCounters r) = 3 ^ w * 3 ^ w).
Proof.
  intros Hm Hw H3. pose proof (pow3_fits w ltac:(lia) H3) as Hw64.
  unfold testMulhsTransferFunctions.
  destruct (enumerate_spec w) as (l & Hl & Hst); [lia|]. rewrite Hl. simpl.
  pose proof (enumerate_length w l ltac:(lia) Hl) as Hlen.
  rewrite Z.mod_small in Hlen by (split; [apply Z.pow_nonneg; lia | done]).
  destruct (pairs_loop mulhs w Hm ltac:(lia) l (mkCounters 0 0 0 0)) as (c & Hrun & Hr & Hs).
  - intros s Hs. eapply enumerate_states; [|done..]. lia.
  - unfold countersInRange. simpl. lia.
  - rewrite Hrun. simpl. eexists. split; [done|]. simpl.
    repeat split; try done; try apply Hr.
    rewrite Hlen in Hs. intros Hfit. rewrite Hs; [done|].
    unfold counterSum. simpl. lia.
Qed.

(** The reference that knows nothing keeps the width. *)
Lemma topMulhs_keepsWidth w : keepsWidth w topMulhs.
Proof. intros lhs rhs (_ & _ & Hz & _) _. unfold topMulhs. simpl. lia. Qed.

(** ** Command line *)

Lemma skipSpace_split s :
  ∃ spaces, s = (spaces ++ skipSpace s)%string ∧ skipSpace spaces = EmptyString.
Proof.
  induction s as [|c s (spaces & Hs & Hsp)].
  - by exists EmptyString.
  - simpl. destruct (isSpace c) eqn:Hc.
    + exists (String c spaces). simpl. rewrite Hc. split; [by f_equal | done].
    + by exists EmptyString.
Qed.

Lemma skipSpace_app spaces s :
  skipSpace spaces = EmptyString → skipSpace (spaces ++ s) = skipSpace s.
Proof.
  induction spaces as [|c spaces IH]; simpl; [done|].
  destruct (isSpace c); [done | discriminate].
Qed.

Lemma digit_not_space d : is_Some (digitOf d) → isSpace d = false.
Proof.
  unfold digitOf, isSpace. intros [n Hn].
  destruct (Z.leb_spec 48 (Z.of_nat (nat_of_ascii d)));
    destruct (Z.leb_spec (Z.of_nat (nat_of_ascii d)) 57); simpl in Hn; try done.
  case_cmp; simpl; try done; lia.
Qed.

Lemma digit_not_sign d :
  is_Some (digitOf d) → d ≠ "+"%char ∧ d ≠ "-"%char.
Proof. intros Hd. split; intros ->; by destruct Hd. Qed.

Lemma stripSign_digit d rest :
  is_Some (digitOf d) → stripSign (String d rest) = (false, String d rest).
Proof.
  intros Hd. destruct (digit_not_sign d Hd) as [Hplus Hminus]. simpl.
  destruct (Ascii.eqb_spec d "-"); [done|]. by destruct (Ascii.eqb_spec d "+").
Qed.

Lemma stripSign_split s :
  ∃ sign, s = (sign ++ (stripSign s).2)%string ∧
          (sign = EmptyString ∨ sign = String "+" EmptyString ∨ sign = String "-" EmptyString).
Proof.
  destruct s as [|c s]; [by exists EmptyString; auto|]. simpl.
  destruct (Ascii.eqb_spec c "-") as [->|]; [exists (String "-" EmptyString); auto|].
  destruct (Ascii.eqb_spec c "+") as [->|]; [exists (String "+" EmptyString); auto|].
  exists EmptyString. auto.
Qed.

Lemma startsWithDigit_inv s :
  startsWithDigit s = true → ∃ d rest, s = String d rest ∧ is_Some (digitOf d).
Proof.
  destruct s as [|d rest]; simpl; [done|]. intros Hd%bool_decide_eq_true. eauto.
Qed.

(** [std::stoi] throws [std::invalid_argument] exactly on the strings that
    do not start with an integer. *)
Lemma stoi_invalid_iff s : stoi s = StoiInvalidArgument ↔ ¬ parsesAsInteger s.
Proof.
  split.
  - intros Hstoi (spaces & sign & d & rest & -> & Hsp & Hsign & Hd).
    unfold stoi in Hstoi. rewrite skipSpace_app in Hstoi by done.
    pose proof (digit_not_space d Hd) as Hds.
    assert (startsWithDigit (String d rest) = true) as Hstart
      by (simpl; by apply bool_decide_eq_true).
    assert (∃ negative, stripSign (skipSpace (sign ++ String d rest)) = (negative, String d rest))
      as [negative Hstrip].
    { destruct Hsign as [-> | [-> | ->]]; simpl.
      - rewrite Hds. exists false. apply (stripSign_digit d rest Hd).
      - by exists false.
      - by exists true. }
    rewrite Hstrip, Hstart in Hstoi.
    by destruct (_ && _).
  - intros Hnot. unfold stoi.
    destruct (stripSign (skipSpace s)) as [negative t] eqn:Hstrip.
    destruct (startsWithDigit t) eqn:Hstart; [|done].
    exfalso. apply Hnot.
    destruct (skipSpace_split s) as (spaces & Hs & Hsp).
    destruct (stripSign_split (skipSpace s)) as (sign & Hsg & Hsign).
    rewrite Hstrip in Hsg. simpl in Hsg.
    destruct (startsWithDigit_inv t Hstart) as (d & rest & -> & Hd).
    exists spaces, sign, d, rest. rewrite <- Hsg. done.
Qed.

(** An argument that starts with an integer outside the range of [int]
    makes [std::stoi] throw [std::out_of_range], which [main] does not catch. *)
Lemma main_out_of_range mulhs prog arg rest :
  stoi arg = StoiOutOfRange → main mulhs (prog :: arg :: rest) = Terminated.
Proof.
  intros Harg. unfold main.
  destruct (Z.ltb_spec (Z.of_nat (length (prog :: arg :: rest))) 2) as [Hlt|_];
    [simpl in Hlt; lia|].
  change ((prog :: arg :: rest) !! 1%nat) with (Some arg).
  cbv beta iota zeta. by rewrite Harg.
Qed.

(** ** The copies of [main.cpp] *)

(** Started from 0, the enumeration of [main.cpp] is that of
    [testMulhs.cpp]; started from anything else, it is not. *)
Lemma main_enumerate_from_zero w :
  0 ≤ w → MainCpp.enumerateFromBitWidth 0 w = enumerateFromBitWidth w.
Proof.
  intros Hw. unfold MainCpp.enumerateFromBitWidth, enumerateFromBitWidth.
  destruct (enumTotal w) as [total|]; [|done]. simpl.
  rewrite Z.sub_0_r, !forM_push_back. f_equal.
  apply Forall_mapM_ext, Forall_seqZ. intros i Hi.
  destruct (enumDigits_spec w i (Z.to_nat w)) as (kb & Hrun & Hkb); [lia..|].
  rewrite Z2Nat.id in Hrun, Hkb by done.
  destruct (enumState_spec w i) as (kb' & Hst & _); [lia..|].
  rewrite Hst. unfold enumState in Hst. unfold MainCpp.enumState.
  rewrite Hrun in Hst |- *. simpl in *.
  destruct (KnownBits.hasConflict kb) as [[]|]; by simplify_eq/=.
Qed.

Example main_enumerate_from_5 :
  length <$> MainCpp.enumerateFromBitWidth 5 2 = Some 4%nat.
Proof. vm_compute. reflexivity. Qed.

(** ** The enumeration and the storage *)

(** The count that the counter holds is odd, so it is not 0. *)
Lemma count_positive w : 0 ≤ w → 0 < 3 ^ w mod 2 ^ 64.
Proof.
  intros Hw. pose proof (Z.mod_pos_bound (3 ^ w) (2 ^ 64) ltac:(lia)) as Hn.
  destruct (Z.eq_dec (3 ^ w mod 2 ^ 64) 0) as [H0|]; [|lia]. exfalso.
  apply Z.mod_divide in H0; [|lia].
  assert ((2 | 3 ^ w)) as [k Hk]
    by (apply Z.divide_trans with (2 ^ 64); [by exists (2 ^ 63) | done]).
  assert (Z.odd (3 ^ w) = true) as Hodd.
  { destruct (Z.eq_dec w 0) as [->|]; [done|]. rewrite Z.odd_pow by lia. done. }
  rewrite Hk, Z.mul_comm, Z.odd_mul in Hodd. done.
Qed.

(** A wrapped count is below the power. *)
Lemma wrapped_count w : 0 ≤ w → 2 ^ 64 ≤ 3 ^ w → 0 < 3 ^ w mod 2 ^ 64 < 3 ^ w.
Proof.
  intros Hw Hbig. pose proof (Z.mod_pos_bound (3 ^ w) (2 ^ 64) ltac:(lia)) as Hn.
  pose proof (count_positive w Hw). lia.
Qed.

(** Once [reserve] has returned, the function goes on as
    [enumerateFromBitWidth] above. *)
Lemma enumerate_after_reserve st w total :
  enumTotal w = Some total → reserve st total = Returns tt →
  WithStorage.enumerateFromBitWidth st w
  = match enumerateFromBitWidth w with
    | Some result => Returns result
    | None => Undefined
    end.
Proof.
  intros Htotal Hres. unfold WithStorage.enumerateFromBitWidth, enumerateFromBitWidth.
  rewrite Htotal, Hres. done.
Qed.

(** What the call of [reserve] makes of the count that the counter holds. *)
Lemma enumerate_reserve_cases st w :
  0 ≤ w →
  let n := 3 ^ w mod 2 ^ 64 in
  (max_size st < n →
     WithStorage.enumerateFromBitWidth st w = Throws length_error) ∧
  (n ≤ max_size st → provides st n = false →
     WithStorage.enumerateFromBitWidth st w = Throws bad_alloc) ∧
  (n ≤ max_size st → provides st n = true →
     ∃ l, WithStorage.enumerateFromBitWidth st w = Returns l ∧
          Z.of_nat (length l) = n).
Proof.
  intros Hw n.
  assert (0 < n) as Hn by (by apply count_positive).
  pose proof (enumTotal_spec w Hw) as Htotal. fold n in Htotal.
  split; [|split].
  - intros Hmax. unfold WithStorage.enumerateFromBitWidth, reserve. rewrite Htotal.
    destruct (Z.ltb_spec (max_size st) n); [done | lia].
  - intros Hmax Hno. unfold WithStorage.enumerateFromBitWidth, reserve. rewrite Htotal.
    destruct (Z.ltb_spec (max_size st) n); [lia|].
    destruct (Z.ltb_spec 0 n); [|lia]. by rewrite Hno.
  - intros Hmax Hyes.
    rewrite (enumerate_after_reserve st w n Htotal).
    + destruct (enumerate_spec w Hw) as (l & Hl & _). rewrite Hl.
      exists l. split; [done|]. by apply enumerate_length.
    + unfold reserve. destruct (Z.ltb_spec (max_size st) n); [lia|].
      destruct (Z.ltb_spec 0 n); [|lia]. by rewrite Hyes.
Qed.

(** ** The scenarios of the design document *)

(** Width 2: nine states. *)
Example enumerate_width_2 :
  length <$> enumerateFromBitWidth 2 = Some 9%nat.
Proof. vm_compute. reflexivity. Qed.

(** Width 2: the all-Unknown state stands for the four 2-bit values, and
    abstracting them gives the all-Unknown state back. *)
Example concretization_top_2 :
  concretization (KnownBits.make 2)
  = Some [mkAPInt 2 0; mkAPInt 2 1; mkAPInt 2 2; mkAPInt 2 3] ∧
  abstraction [mkAPInt 2 0; mkAPInt 2 1; mkAPInt 2 2; mkAPInt 2 3]
  = Some (KnownBits.make 2).
Proof. split; vm_compute; reflexivity. Qed.

(** Width 2, bit 0 known One, bit 1 Unknown: the values 01 and 11. *)
Example concretization_bit0_one :
  concretization (mkKnownBits (mkAPInt 2 0) (mkAPInt 2 1))
  = Some [mkAPInt 2 1; mkAPInt 2 3].
Proof. vm_compute. reflexivity. Qed.

(** Width 1, the naive function standing in for the reference: nine pairs,
    all of them Equal. *)
Example engine_naive_against_itself :
  testMulhsTransferFunctions
    (λ lhs rhs, default (KnownBits.make 1) (naiveMulhs lhs rhs)) 1
  = Some (mkReport 1 3 (mkCounters 0 0 9 0)).
Proof. vm_compute. reflexivity. Qed.

(** Width 4: -2 times -1 is 2, whose high half is 0. *)
Example naiveMulhs_known_operands :
  naiveMulhs (mkKnownBits (mkAPInt 4 1) (mkAPInt 4 14))
             (mkKnownBits (mkAPInt 4 0) (mkAPInt 4 15))
  = Some (mkKnownBits (mkAPInt 4 15) (mkAPInt 4 0)).
Proof. vm_compute. reflexivity. Qed.

Example stoi_examples :
  stoi "12" = StoiValue 12 ∧ stoi "  -3x" = StoiValue (-3) ∧
  stoi "abc" = StoiInvalidArgument ∧ stoi "" = StoiInvalidArgument ∧
  stoi "99999999999" = StoiOutOfRange.
Proof. repeat split; vm_compute; reflexivity. Qed.

(** * The claims *)

(** C1 (amended).  For every conflict-free abstract state [kb] of width [w]
    with fewer than 64 Unknown bits, [abstraction (concretization (kb))]
    returns a state equal to [kb]: the Zero and One masks of the round-trip
    result are the masks of [kb]. *)
Theorem abstraction_concretization_roundtrip kb w :
  hasWidth w kb → noConflict kb → numUnknown kb < 64 →
  concretization kb ≫= abstraction = Some kb.
Proof.
  intros Hwf Hnc Hk. destruct (roundtrip kb w Hwf Hnc Hk) as (l & -> & Habs). done.
Qed.

Lemma abstraction_concretization_roundtrip_witness :
  concretization (mkKnownBits (mkAPInt 2 0) (mkAPInt 2 1)) ≫= abstraction
  = Some (mkKnownBits (mkAPInt 2 0) (mkAPInt 2 1)).
Proof.
  apply (abstraction_concretization_roundtrip _ 2).
  - unfold hasWidth, wfAPInt. simpl. lia.
  - reflexivity.
  - vm_compute. reflexivity.
Defined.

(** C1 as stated fails on the all-Unknown state of width 64: the shift
    [1ull << 64] that sizes the result is undefined, and no state comes back. *)
Lemma roundtrip_undefined_at_64_unknown :
  let kb := mkKnownBits (mkAPInt 64 0) (mkAPInt 64 0) in
  hasWidth 64 kb ∧ noConflict kb ∧ concretization kb ≫= abstraction ≠ Some kb.
Proof.
  split; [|split].
  - unfold hasWidth, wfAPInt. simpl. lia.
  - reflexivity.
  - vm_compute. discriminate.
Qed.

(** C2.  For every nonempty list [values] of [APInt]s of one width [w],
    [abstraction] returns a state of width [w]; every member of [values] is
    consistent with it; and a bit is marked Zero if and only if it is clear in
    every member, One if and only if it is set in every member. *)
Theorem abstraction_most_precise values w :
  values ≠ [] → Forall (isValue w) values →
  ∃ kb, abstraction values = Some kb ∧ hasWidth w kb ∧
        (∀ v, v ∈ values → consistent v kb) ∧
        ∀ k, 0 ≤ k < w →
          (bit (Zero kb) k = true ↔ ∀ v, v ∈ values → bit v k = false) ∧
          (bit (One kb) k = true ↔ ∀ v, v ∈ values → bit v k = true).
Proof.
  intros Hne Hvs.
  assert (0 ≤ w < 2 ^ 32) as Hw.
  { destruct values as [|v values]; [done|].
    apply Forall_cons_1 in Hvs as [[[Hw _] <-] _]. done. }
  destruct (abstraction_best values w) as (kb & Habs & Hw0 & Hw1 & Hbits); [lia | done | |].
  { eapply Forall_impl; [done|]. by intros v [_ Hv]. }
  exists kb. split; [done|]. split; [by eapply best_hasWidth|].
  split; [intros v Hv; by eapply best_consistent|].
  intros k Hk. destruct (Hbits k) as [Hz Ho]; [lia|].
  rewrite Hz, Ho. split; split; try tauto; intros; (split; [lia | done]).
Qed.

Lemma abstraction_most_precise_witness :
  ∃ kb, abstraction [mkAPInt 2 1; mkAPInt 2 3] = Some kb ∧ hasWidth 2 kb ∧
        (∀ v, v ∈ [mkAPInt 2 1; mkAPInt 2 3] → consistent v kb) ∧
        ∀ k, 0 ≤ k < 2 →
          (bit (Zero kb) k = true ↔ ∀ v, v ∈ [mkAPInt 2 1; mkAPInt 2 3] → bit v k = false) ∧
          (bit (One kb) k = true ↔ ∀ v, v ∈ [mkAPInt 2 1; mkAPInt 2 3] → bit v k = true).
Proof.
  apply (abstraction_most_precise [mkAPInt 2 1; mkAPInt 2 3] 2).
  - discriminate.
  - repeat constructor; simpl; lia.
Defined.

(** C3.  For every width [w >= 1] such that [3 ^ w] fits the 64-bit counter,
    [enumerateFromBitWidth (w)] returns exactly [3 ^ w] states of width [w],
    pairwise distinct, none with a bit set in both masks. *)
Theorem enumerateFromBitWidth_complete w :
  1 ≤ w → 3 ^ w < 2 ^ 64 →
  ∃ l, enumerateFromBitWidth w = Some l ∧
       Z.of_nat (length l) = 3 ^ w ∧
       NoDup l ∧
       Forall (λ kb, hasWidth w kb ∧ noConflict kb) l.
Proof.
  intros Hw H3. pose proof (pow3_fits w ltac:(lia) H3) as Hw64.
  assert (0 ≤ 3 ^ w) as Hpos by (apply Z.pow_nonneg; lia).
  destruct (enumerate_spec w) as (l & Hl & Hst); [lia|].
  rewrite Z.mod_small in Hst by lia.
  exists l. split; [done|]. split; [|split].
  - apply Forall2_length in Hst. rewrite <- Hst, length_seqZ. lia.
  - apply NoDup_alt. intros i j kb Hi Hj.
    destruct (Forall2_lookup_r _ _ _ i kb Hst Hi) as (a & Ha & Hsa).
    destruct (Forall2_lookup_r _ _ _ j kb Hst Hj) as (b & Hb & Hsb).
    apply lookup_seqZ in Ha as [-> Ha]. apply lookup_seqZ in Hb as [-> Hb].
    assert (0 + Z.of_nat i = 0 + Z.of_nat j) by (eapply (ternaryState_inj w); [| | |done..]; lia).
    lia.
  - apply Forall_forall. intros kb Hkb. eapply enumerate_states; [|done..]. lia.
Qed.

Lemma enumerateFromBitWidth_complete_witness :
  ∃ l, enumerateFromBitWidth 2 = Some l ∧
       Z.of_nat (length l) = 3 ^ 2 ∧
       NoDup l ∧
       Forall (λ kb, hasWidth 2 kb ∧ noConflict kb) l.
Proof.
  apply (enumerateFromBitWidth_complete 2); [lia | vm_compute; reflexivity].
Defined.

(** C4 (amended).  For every conflict-free abstract state [kb] of width [w]
    with [k < 64] Unknown bits, [concretization (kb)] returns exactly the
    [w]-bit values consistent with [kb], each once, so [2 ^ k] values; when
    [k = 0] it returns the single value equal to the One mask. *)
Theorem concretization_exact kb w :
  hasWidth w kb → noConflict kb → numUnknown kb < 64 →
  ∃ l, concretization kb = Some l ∧
       NoDup l ∧
       (∀ v, v ∈ l ↔ isValue w v ∧ consistent v kb) ∧
       Z.of_nat (length l) = 2 ^ numUnknown kb ∧
       (numUnknown kb = 0 → l = [One kb]).
Proof.
  intros Hwf Hnc Hk.
  pose proof (concretization_spec kb w Hwf Hk) as Hl. set (l := _ <$> _) in Hl.
  exists l. split; [done|]. split; [by eapply concretization_NoDup|].
  split; [intros v; by apply concretization_elem_of|].
  split; [by eapply concretization_length|].
  intros H0. rewrite (concretization_known kb w) in Hl by done. by simplify_eq.
Qed.

Lemma concretization_exact_witness :
  ∃ l, concretization (mkKnownBits (mkAPInt 2 0) (mkAPInt 2 1)) = Some l ∧
       NoDup l ∧
       (∀ v, v ∈ l ↔ isValue 2 v ∧ consistent v (mkKnownBits (mkAPInt 2 0) (mkAPInt 2 1))) ∧
       Z.of_nat (length l) = 2 ^ numUnknown (mkKnownBits (mkAPInt 2 0) (mkAPInt 2 1)) ∧
       (numUnknown (mkKnownBits (mkAPInt 2 0) (mkAPInt 2 1)) = 0 →
        l = [One (mkKnownBits (mkAPInt 2 0) (mkAPInt 2 1))]).
Proof.
  apply (concretization_exact _ 2).
  - unfold hasWidth, wfAPInt. simpl. lia.
  - reflexivity.
  - vm_compute. reflexivity.
Defined.

(** C4 as stated fails on the all-Unknown state of width 64, which has 64
    Unknown bits: no list of [2 ^ 64] values comes back. *)
Lemma concretization_undefined_at_64_unknown :
  let kb := mkKnownBits (mkAPInt 64 0) (mkAPInt 64 0) in
  hasWidth 64 kb ∧ noConflict kb ∧ numUnknown kb = 64 ∧
  ¬ ∃ l, concretization kb = Some l ∧ Z.of_nat (length l) = 2 ^ numUnknown kb.
Proof.
  split; [|split; [|split]].
  - unfold hasWidth, wfAPInt. simpl. lia.
  - reflexivity.
  - vm_compute. reflexivity.
  - intros (l & Hl & _). vm_compute in Hl. discriminate.
Qed.

(** C5.  For all conflict-free abstract states [lhs] and [rhs] of one width
    [w], every [a] in [concretization (lhs)] and every [b] in
    [concretization (rhs)]: the exact signed high multiplication of [a] and
    [b] (the high [w] bits of the [2 * w]-bit product of their sign
    extensions) is consistent with what [naiveMulhs (lhs, rhs)] returns.
    [naiveMulhs] does return when each operand has fewer than 64 Unknown bits
    and [2 * w] fits an [unsigned]. *)
Theorem naiveMulhs_soundness lhs rhs w :
  hasWidth w lhs → noConflict lhs → hasWidth w rhs → noConflict rhs →
  (∀ r cl cr a b,
     naiveMulhs lhs rhs = Some r →
     concretization lhs = Some cl → concretization rhs = Some cr →
     a ∈ cl → b ∈ cr →
     consistent (mulhsExact w a b) r) ∧
  (numUnknown lhs < 64 → numUnknown rhs < 64 → 1 ≤ w < 2 ^ 31 →
   ∃ r, naiveMulhs lhs rhs = Some r).
Proof.
  intros Hl _ Hr _. split.
  - intros r cl cr a b. by apply naiveMulhs_sound.
  - intros Hkl Hkr Hw. by apply (naiveMulhs_defined lhs rhs w).
Qed.

Lemma naiveMulhs_soundness_witness :
  let lhs := mkKnownBits (mkAPInt 4 12) (mkAPInt 4 0) in
  let rhs := mkKnownBits (mkAPInt 4 12) (mkAPInt 4 1) in
  consistent (mulhsExact 4 (mkAPInt 4 3) (mkAPInt 4 3))
             (mkKnownBits (mkAPInt 4 15) (mkAPInt 4 0)) ∧
  ∃ r, naiveMulhs lhs rhs = Some r.
Proof.
  intros lhs rhs.
  destruct (naiveMulhs_soundness lhs rhs 4) as [Hsound Hreturns].
  - unfold hasWidth, wfAPInt. simpl. lia.
  - reflexivity.
  - unfold hasWidth, wfAPInt. simpl. lia.
  - reflexivity.
  - split.
    + apply (Hsound _ [mkAPInt 4 0; mkAPInt 4 1; mkAPInt 4 2; mkAPInt 4 3]
                      [mkAPInt 4 1; mkAPInt 4 3]).
      * vm_compute. reflexivity.
      * vm_compute. reflexivity.
      * vm_compute. reflexivity.
      * repeat constructor.
      * repeat constructor.
    + apply Hreturns; [vm_compute; reflexivity | vm_compute; reflexivity | lia].
Defined.

(** C6 (amended).  Let [1 <= w] with [(3 ^ w) ^ 2 < 2 ^ 64], and let the
    reference return results of width [w].  For each pair of operands of
    width [w] the engine increments exactly one counter: Incomparable if and
    only if at some bit [k < w] the reference result marks Zero and the naive
    result One, or the reference One and the naive result Zero; otherwise the
    one of ReferencePreciser, NaivePreciser, Equal that the comparison of the
    two precision counts selects.  The run returns, and the four counters sum
    to the number of pairs, [(3 ^ w) ^ 2]. *)
Theorem comparison_engine mulhs w :
  1 ≤ w → (3 ^ w) ^ 2 < 2 ^ 64 → keepsWidth w mulhs →
  (∀ LHS RHS c, hasWidth w LHS → hasWidth w RHS →
     ∃ naive v,
       naiveMulhs LHS RHS = Some naive ∧
       testPair mulhs w LHS RHS c = Some (tally v c) ∧
       (v = Incomparable ↔ contradictory w (mulhs LHS RHS) naive) ∧
       (v = ReferencePreciser ↔
          ¬ contradictory w (mulhs LHS RHS) naive ∧
          precisionCount naive < precisionCount (mulhs LHS RHS)) ∧
       (v = NaivePreciser ↔
          ¬ contradictory w (mulhs LHS RHS) naive ∧
          precisionCount (mulhs LHS RHS) < precisionCount naive) ∧
       (v = Equal ↔
          ¬ contradictory w (mulhs LHS RHS) naive ∧
          precisionCount (mulhs LHS RHS) = precisionCount naive)) ∧
  ∃ r, testMulhsTransferFunctions mulhs w = Some r ∧
       totalKnownBits r = 3 ^ w ∧
       counterSum (reportCounters r) = (3 ^ w) ^ 2.
Proof.
  intros Hw Hsq Hm.
  assert (0 < 3 ^ w) as Hpos by (apply Z.pow_pos_nonneg; lia).
  assert (3 ^ w < 2 ^ 64) as H3 by nia.
  pose proof (pow3_fits w ltac:(lia) H3) as Hw64.
  split.
  - intros LHS RHS c Hl Hr. apply testPair_spec; [done | lia | done..].
  - destruct (testMulhs_runs mulhs w Hm Hw H3) as (r & Hrun & _ & Htot & _ & Hsum).
    exists r. split; [done|]. split; [done|]. rewrite Hsum; lia.
Qed.

Lemma comparison_engine_witness :
  (∀ LHS RHS c, hasWidth 1 LHS → hasWidth 1 RHS →
     ∃ naive v,
       naiveMulhs LHS RHS = Some naive ∧
       testPair topMulhs 1 LHS RHS c = Some (tally v c) ∧
       (v = Incomparable ↔ contradictory 1 (topMulhs LHS RHS) naive) ∧
       (v = ReferencePreciser ↔
          ¬ contradictory 1 (topMulhs LHS RHS) naive ∧
          precisionCount naive < precisionCount (topMulhs LHS RHS)) ∧
       (v = NaivePreciser ↔
          ¬ contradictory 1 (topMulhs LHS RHS) naive ∧
          precisionCount (topMulhs LHS RHS) < precisionCount naive) ∧
       (v = Equal ↔
          ¬ contradictory 1 (topMulhs LHS RHS) naive ∧
          precisionCount (topMulhs LHS RHS) = precisionCount naive)) ∧
  ∃ r, testMulhsTransferFunctions topMulhs 1 = Some r ∧
       totalKnownBits r = 3 ^ 1 ∧
       counterSum (reportCounters r) = (3 ^ 1) ^ 2.
Proof.
  apply (comparison_engine topMulhs 1).
  - lia.
  - vm_compute. reflexivity.
  - intros lhs rhs (_ & _ & Hz & _) _. unfold topMulhs. simpl. lia.
Defined.

(** C6 as stated fails at width 21, for which [3 ^ 21] still fits the
    64-bit counter: the run returns, but four 64-bit counters cannot sum to
    [(3 ^ 21) ^ 2]. *)
Lemma counters_wrap_at_21 :
  3 ^ 21 < 2 ^ 64 ∧
  ∃ r, testMulhsTransferFunctions topMulhs 21 = Some r ∧
       counterSum (reportCounters r) ≠ (3 ^ 21) ^ 2.
Proof.
  split; [vm_compute; reflexivity|].
  destruct (testMulhs_runs topMulhs 21) as (r & Hrun & _ & _ & Hr & _).
  - apply topMulhs_keepsWidth.
  - lia.
  - vm_compute. reflexivity.
  - exists r. split; [done|].
    destruct Hr as (H1 & H2 & H3 & H4). unfold counterSum.
    assert ((3 ^ 21) ^ 2 = 109418989131512359209) as -> by (vm_compute; reflexivity).
    change (2 ^ 64) with 18446744073709551616 in *. lia.
Qed.

(** C7.  On the one-element list holding the 1-bit value 0, the
    [abstraction] of [testMulhs.cpp] marks bit 0 as Zero, the [abstraction]
    of [main.cpp] marks nothing: the two copies are not equal. *)
Theorem abstraction_copies_differ :
  abstraction [mkAPInt 1 0] = Some (mkKnownBits (mkAPInt 1 1) (mkAPInt 1 0)) ∧
  MainCpp.abstraction [mkAPInt 1 0] = Some (mkKnownBits (mkAPInt 1 0) (mkAPInt 1 0)).
Proof. split; vm_compute; reflexivity. Qed.

(** C8.  Every state handed out has no bit set in both masks: each element
    that [enumerateFromBitWidth] returns, the result of [abstraction] on a
    nonempty list of values of one width, and whatever [naiveMulhs] returns
    on conflict-free operands of one width. *)
Theorem no_conflict_invariant :
  (∀ w, 0 ≤ w → ∃ l, enumerateFromBitWidth w = Some l ∧ Forall noConflict l) ∧
  (∀ values w, values ≠ [] → Forall (isValue w) values →
     ∃ kb, abstraction values = Some kb ∧ noConflict kb) ∧
  (∀ lhs rhs w r,
     hasWidth w lhs → noConflict lhs → hasWidth w rhs → noConflict rhs →
     naiveMulhs lhs rhs = Some r → noConflict r).
Proof.
  split; [|split].
  - intros w Hw. destruct (enumerate_spec w Hw) as (l & Hl & Hst).
    exists l. split; [done|]. apply Forall_forall. intros kb Hkb.
    apply list_elem_of_lookup in Hkb as [j Hj].
    destruct (Forall2_lookup_r _ _ _ j kb Hst Hj) as (i & _ & Hi).
    by eapply ternaryState_noConflict.
  - intros values w Hne Hvs.
    assert (0 ≤ w) as Hw.
    { destruct values as [|v values]; [done|].
      apply Forall_cons_1 in Hvs as [[[Hw _] <-] _]. lia. }
    destruct (abstraction_best values w) as (kb & Habs & _ & _ & Hbits); [done | done | |].
    { eapply Forall_impl; [done|]. by intros v [_ Hv]. }
    exists kb. split; [done | by eapply best_noConflict].
  - intros lhs rhs w r Hl _ Hr _ Hn. by destruct (naiveMulhs_result lhs rhs w r).
Qed.

Lemma no_conflict_invariant_witness :
  (∃ l, enumerateFromBitWidth 2 = Some l ∧ Forall noConflict l) ∧
  (∃ kb, abstraction [mkAPInt 2 1; mkAPInt 2 3] = Some kb ∧ noConflict kb) ∧
  noConflict (mkKnownBits (mkAPInt 2 0) (mkAPInt 2 0)).
Proof.
  destruct no_conflict_invariant as (Henum & Habs & Hnaive).
  split; [|split].
  - apply (Henum 2). lia.
  - apply (Habs _ 2); [discriminate | repeat constructor; simpl; lia].
  - apply (Hnaive (mkKnownBits (mkAPInt 2 0) (mkAPInt 2 1))
                  (mkKnownBits (mkAPInt 2 0) (mkAPInt 2 0)) 2).
    + unfold hasWidth, wfAPInt. simpl. lia.
    + reflexivity.
    + unfold hasWidth, wfAPInt. simpl. lia.
    + reflexivity.
    + vm_compute. reflexivity.
Defined.

(** C9 (amended).  When the width is too large for [3 ^ w] to fit the 64-bit
    counter, nothing checks the overflow: the counter wraps silently to
    [3 ^ w mod 2 ^ 64], and that count is what [result.reserve] and the loop
    receive.  The run ends before the enumeration only when [reserve]
    throws on the wrapped count, [std::length_error] above [max_size ()]
    and [std::bad_alloc] when the allocator provides no room; otherwise
    [3 ^ w mod 2 ^ 64] states are enumerated. *)
Theorem enumerateFromBitWidth_wraps st w :
  0 ≤ w → 2 ^ 64 ≤ 3 ^ w →
  let n := 3 ^ w mod 2 ^ 64 in
  enumTotal w = Some n ∧ 0 < n < 3 ^ w ∧
  (max_size st < n →
     WithStorage.enumerateFromBitWidth st w = Throws length_error) ∧
  (n ≤ max_size st → provides st n = false →
     WithStorage.enumerateFromBitWidth st w = Throws bad_alloc) ∧
  (n ≤ max_size st → provides st n = true →
     ∃ l, WithStorage.enumerateFromBitWidth st w = Returns l ∧
          Z.of_nat (length l) = n).
Proof.
  intros Hw Hbig n. split; [by apply enumTotal_spec|].
  split; [by apply wrapped_count|]. by apply enumerate_reserve_cases.
Qed.

Lemma enumerateFromBitWidth_wraps_witness :
  let st := mkStorage (2 ^ 58 - 1) (λ _, false) in
  let n := 3 ^ 41 mod 2 ^ 64 in
  enumTotal 41 = Some n ∧ 0 < n < 3 ^ 41 ∧
  (max_size st < n →
     WithStorage.enumerateFromBitWidth st 41 = Throws length_error) ∧
  (n ≤ max_size st → provides st n = false →
     WithStorage.enumerateFromBitWidth st 41 = Throws bad_alloc) ∧
  (n ≤ max_size st → provides st n = true →
     ∃ l, WithStorage.enumerateFromBitWidth st 41 = Returns l ∧
          Z.of_nat (length l) = n).
Proof.
  apply (enumerateFromBitWidth_wraps (mkStorage (2 ^ 58 - 1) (λ _, false)) 41);
    [lia | vm_compute; discriminate].
Defined.

(** C9 as stated fails at width 529.  [3 ^ 529] does not fit the counter,
    which silently holds 116493702020349379; no overflow or range error is
    raised on it.  With that count within [max_size ()], the run ends in
    [std::bad_alloc] when the allocator has no room for so many states, and
    enumerates so many states when it has. *)
Lemma enumeration_unchecked_at_529 :
  2 ^ 64 ≤ 3 ^ 529 ∧
  enumTotal 529 = Some 116493702020349379 ∧
  ∀ st, 116493702020349379 ≤ max_size st →
    (provides st 116493702020349379 = false →
       WithStorage.enumerateFromBitWidth st 529 = Throws bad_alloc) ∧
    (provides st 116493702020349379 = true →
       ∃ l, WithStorage.enumerateFromBitWidth st 529 = Returns l ∧
            Z.of_nat (length l) = 116493702020349379).
Proof.
  assert (3 ^ 529 mod 2 ^ 64 = 116493702020349379) as Hn by (vm_compute; reflexivity).
  split; [vm_compute; discriminate|]. split; [vm_compute; reflexivity|].
  intros st Hmax.
  destruct (enumerate_reserve_cases st 529 ltac:(lia)) as (_ & Hbad & Hruns).
  rewrite Hn in Hbad, Hruns. split; [by apply Hbad | by apply Hruns].
Qed.

(** C10.  Without a positional argument [main] prints the usage text and
    returns 1.  With an argument that does not start with an integer, [main]
    goes on with the fixed width 4 in place of the argument; the run then
    returns 0 (the reference returning 4-bit results). *)
Theorem main_arguments mulhs :
  (∀ argv, (length argv < 2)%nat →
     main mulhs argv = Returned 1 (Usage "Usage: testMulhs <bitWidth>")) ∧
  (∀ prog arg rest, ¬ parsesAsInteger arg →
     main mulhs (prog :: arg :: rest)
     = match testMulhsTransferFunctions mulhs 4 with
       | Some r => Returned 0 (Results r)
       | None => Failed
       end ∧
     (keepsWidth 4 mulhs →
      ∃ r, reportBitWidth r = 4 ∧
           main mulhs (prog :: arg :: rest) = Returned 0 (Results r))).
Proof.
  split.
  - intros argv Hargc. unfold main.
    replace (Z.of_nat (length argv) <? 2) with true by lia. done.
  - intros prog arg rest Harg. apply stoi_invalid_iff in Harg.
    assert (main mulhs (prog :: arg :: rest)
            = match testMulhsTransferFunctions mulhs 4 with
              | Some r => Returned 0 (Results r)
              | None => Failed
              end) as Hmain.
    { unfold main.
      destruct (Z.ltb_spec (Z.of_nat (length (prog :: arg :: rest))) 2) as [Hlt|_];
        [simpl in Hlt; lia|].
      change ((prog :: arg :: rest) !! 1%nat) with (Some arg).
      cbv beta iota zeta. by rewrite Harg. }
    split; [done|]. intros Hm.
    destruct (testMulhs_runs mulhs 4 Hm) as (r & Hrun & Hbw & _);
      [lia | vm_compute; reflexivity |].
    exists r. split; [done|]. by rewrite Hmain, Hrun.
Qed.

Lemma main_arguments_witness :
  main topMulhs [] = Returned 1 (Usage "Usage: testMulhs <bitWidth>") ∧
  ∃ r, reportBitWidth r = 4 ∧
       main topMulhs ["testMulhs"; "four"]%string = Returned 0 (Results r).
Proof.
  destruct (main_arguments topMulhs) as [Husage Hdefault]. split.
  - apply Husage. simpl. lia.
  - apply (Hdefault "testMulhs" "four" [])%string.
    + rewrite <- stoi_invalid_iff. vm_compute. reflexivity.
    + intros lhs rhs (_ & _ & Hz & _) _. unfold topMulhs. simpl. lia.
Defined.

(** * Further properties *)

(** ** Order and exhaustiveness of the enumeration *)

Lemma stateDigit_range kb b : 0 ≤ stateDigit kb b < 3.
Proof. unfold stateDigit. destruct (bit (Zero kb) b), (bit (One kb) b); lia. Qed.

Lemma stateIndex_range n kb : 0 ≤ stateIndex n kb < 3 ^ Z.of_nat n.
Proof.
  induction n as [|n IH]; [simpl; lia|].
  simpl stateIndex. rewrite Nat2Z.inj_succ, Z.pow_succ_r by lia.
  pose proof (stateDigit_range kb (Z.of_nat n)). nia.
Qed.

Lemma stateIndex_digit n kb b :
  0 ≤ b < Z.of_nat n → ternaryDigit (stateIndex n kb) b = stateDigit kb b.
Proof.
  induction n as [|n IH]; intros Hb; [lia|].
  simpl stateIndex. unfold ternaryDigit.
  pose proof (stateIndex_range n kb) as Hr.
  pose proof (stateDigit_range kb (Z.of_nat n)) as Hd.
  destruct (Z.eq_dec b (Z.of_nat n)) as [->|Hne].
  - rewrite Z.div_add by lia. rewrite Z.div_small by lia.
    rewrite Z.add_0_l. apply Z.mod_small. lia.
  - assert (∃ k, 0 ≤ k ∧ Z.of_nat n = k + 1 + b) as (k & Hk & Hn)
      by (exists (Z.of_nat n - b - 1); lia).
    rewrite Hn at 2. rewrite !Z.pow_add_r, Z.pow_1_r by lia.
    rewrite !Z.mul_assoc, Z.div_add, Z.mod_add by lia. apply IH. lia.
Qed.

(** A conflict-free state is the ternary state of its own index. *)
Lemma stateIndex_ternaryState w kb :
  hasWidth w kb → noConflict kb →
  ternaryState w (stateIndex (Z.to_nat w) kb) kb.
Proof.
  intros (Hwf0 & Hwf1 & Hw0 & Hw1) Hnc. split; [done|]. split; [done|].
  intros b Hb. destruct Hwf0 as [Hw Hz], Hwf1 as [_ Ho].
  rewrite Hw0 in *. rewrite Hw1 in *.
  destruct (Z.ltb_spec b w) as [Hlt|Hge]; simpl.
  - rewrite stateIndex_digit by lia. unfold stateDigit.
    destruct (bit (Zero kb) b) eqn:Ez.
    + by rewrite (noConflict_bits kb b Hnc Ez).
    + by destruct (bit (One kb) b).
  - unfold bit. by rewrite !(bounded_bits w _ b) by done.
Qed.

Lemma ternaryState_unique w i kb kb' :
  ternaryState w i kb → ternaryState w i kb' → kb = kb'.
Proof.
  intros (Hz & Ho & Hb) (Hz' & Ho' & Hb'). apply KnownBits_eq; [congruence..|].
  intros p Hp. destruct (Hb p Hp) as [-> ->], (Hb' p Hp) as [-> ->]. done.
Qed.

(** X1.  Element [i] of the enumeration is the state whose bit [b] is Zero,
    One or Unknown as the ternary digit [b] of [i] is 0, 1 or 2. *)
Theorem enumerate_order w l i kb :
  0 ≤ w → enumerateFromBitWidth w = Some l → l !! i = Some kb →
  BitWidth (Zero kb) = w ∧ BitWidth (One kb) = w ∧
  ∀ b, 0 ≤ b < w →
    (bit (Zero kb) b = true ↔ ternaryDigit (Z.of_nat i) b = 0) ∧
    (bit (One kb) b = true ↔ ternaryDigit (Z.of_nat i) b = 1) ∧
    (isUnknown kb b = true ↔ ternaryDigit (Z.of_nat i) b = 2).
Proof.
  intros Hw Hl Hi. destruct (enumerate_spec w Hw) as (l' & Hl' & Hst). simplify_eq.
  destruct (Forall2_lookup_r _ _ _ i kb Hst Hi) as (j & Hj & Hkb).
  apply lookup_seqZ in Hj as [-> _]. rewrite Z.add_0_l in Hkb.
  destruct Hkb as (Hz & Ho & Hb). split; [done|]. split; [done|].
  intros b Hbw. destruct (Hb b) as [Ez Eo]; [lia|].
  unfold isUnknown. rewrite Ez, Eo.
  pose proof (ternaryDigit_range (Z.of_nat i) b).
  replace (b <? w) with true by lia. simpl.
  case_cmp; simpl; split_and!; split; intros; try done; lia.
Qed.

Lemma enumerate_order_witness :
  let kb := mkKnownBits (mkAPInt 2 2) (mkAPInt 2 1) in
  BitWidth (Zero kb) = 2 ∧ BitWidth (One kb) = 2 ∧
  ∀ b, 0 ≤ b < 2 →
    (bit (Zero kb) b = true ↔ ternaryDigit (Z.of_nat 1) b = 0) ∧
    (bit (One kb) b = true ↔ ternaryDigit (Z.of_nat 1) b = 1) ∧
    (isUnknown kb b = true ↔ ternaryDigit (Z.of_nat 1) b = 2).
Proof.
  intros kb. destruct (enumerateFromBitWidth 2) as [l|] eqn:Hl; [|vm_compute in Hl; done].
  apply (enumerate_order 2 l 1 kb); [lia | done |].
  vm_compute in Hl. by simplify_eq.
Defined.

(** X2.  While [3 ^ w] fits the counter, every conflict-free state of width
    [w] is in the enumeration, at the index that spells its bits in base 3. *)
Theorem enumerate_exhaustive w kb :
  0 ≤ w → 3 ^ w < 2 ^ 64 → hasWidth w kb → noConflict kb →
  ∃ l, enumerateFromBitWidth w = Some l ∧
       l !! Z.to_nat (stateIndex (Z.to_nat w) kb) = Some kb.
Proof.
  intros Hw H3 Hwf Hnc. destruct (enumerate_spec w Hw) as (l & Hl & Hst).
  exists l. split; [done|].
  pose proof (stateIndex_range (Z.to_nat w) kb) as Hr. rewrite Z2Nat.id in Hr by done.
  rewrite Z.mod_small in Hst by lia.
  set (i := stateIndex (Z.to_nat w) kb) in *.
  assert (seqZ 0 (3 ^ w) !! Z.to_nat i = Some i) as Hi
    by (rewrite lookup_seqZ; lia).
  destruct (Forall2_lookup_l _ _ _ _ _ Hst Hi) as (kb' & Hkb' & Hs).
  rewrite Hkb'. f_equal. eapply ternaryState_unique; [done|].
  by apply stateIndex_ternaryState.
Qed.

Lemma enumerate_exhaustive_witness :
  ∃ l, enumerateFromBitWidth 2 = Some l ∧
       l !! Z.to_nat (stateIndex (Z.to_nat 2) (mkKnownBits (mkAPInt 2 2) (mkAPInt 2 1)))
       = Some (mkKnownBits (mkAPInt 2 2) (mkAPInt 2 1)).
Proof.
  apply (enumerate_exhaustive 2).
  - lia.
  - vm_compute. reflexivity.
  - unfold hasWidth, wfAPInt. simpl. lia.
  - reflexivity.
Defined.

(** ** More on [concretization] *)

Lemma concretization_mismatch kb :
  BitWidth (Zero kb) ≠ BitWidth (One kb) → concretization kb = None.
Proof.
  intros Hne. unfold concretization, KnownBits.getBitWidth.
  by destruct (Z.eqb_spec (BitWidth (Zero kb)) (BitWidth (One kb))).
Qed.

Lemma concretization_too_many kb w :
  hasWidth w kb → 64 ≤ numUnknown kb → concretization kb = None.
Proof.
  intros Hwf Hk. destruct (concretization kb) as [l|] eqn:Hl; [|done].
  pose proof (concretization_Some_inv kb w l Hwf Hl). lia.
Qed.

(** X3.  On a state with well-formed masks, [concretization] returns if and
    only if the two masks have the same width and fewer than 64 bits are
    Unknown. *)
Theorem concretization_defined_iff kb :
  wfAPInt (Zero kb) → wfAPInt (One kb) →
  is_Some (concretization kb) ↔
  BitWidth (Zero kb) = BitWidth (One kb) ∧ numUnknown kb < 64.
Proof.
  intros Hz Ho. split.
  - intros [l Hl].
    destruct (Z.eq_dec (BitWidth (Zero kb)) (BitWidth (One kb))) as [Hw|Hw];
      [|by rewrite concretization_mismatch in Hl].
    split; [done|]. by eapply (concretization_Some_inv kb (BitWidth (Zero kb)) l).
  - intros [Hw Hk]. rewrite (concretization_spec kb (BitWidth (Zero kb))); done.
Qed.

Lemma concretization_defined_iff_witness :
  is_Some (concretization (mkKnownBits (mkAPInt 2 0) (mkAPInt 2 1))) ↔
  BitWidth (Zero (mkKnownBits (mkAPInt 2 0) (mkAPInt 2 1)))
  = BitWidth (One (mkKnownBits (mkAPInt 2 0) (mkAPInt 2 1))) ∧
  numUnknown (mkKnownBits (mkAPInt 2 0) (mkAPInt 2 1)) < 64.
Proof.
  apply concretization_defined_iff; unfold wfAPInt; simpl; lia.
Defined.

Lemma resolve_bits kb k :
  bit (Zero (resolve kb)) k = bit (Zero kb) k && negb (bit (One kb) k) ∧
  bit (One (resolve kb)) k = bit (One kb) k.
Proof. unfold bit, resolve. simpl. by rewrite Z.ldiff_spec. Qed.

Lemma resolve_hasWidth kb w : hasWidth w kb → hasWidth w (resolve kb).
Proof.
  intros (Hwf0 & Hwf1 & Hw0 & Hw1). destruct Hwf0 as [Hw Hz]. rewrite Hw0 in *.
  assert (0 ≤ Z.ldiff (Val (Zero kb)) (Val (One kb)) < 2 ^ w) as Hb.
  { apply bits_bounded; [lia|]. intros b Hb.
    rewrite Z.ldiff_spec, (bounded_bits w (Val (Zero kb)) b) by done. done. }
  unfold hasWidth, resolve, wfAPInt. simpl. rewrite Hw0. done.
Qed.

Lemma resolve_noConflict kb : noConflict (resolve kb).
Proof.
  apply Z.bits_inj'. intros k Hk. unfold resolve. simpl.
  rewrite Z.land_spec, Z.ldiff_spec, Z.bits_0.
  by destruct (Z.testbit (Val (Zero kb)) k), (Z.testbit (Val (One kb)) k).
Qed.

Lemma resolve_unknownBits kb : unknownBits (resolve kb) = unknownBits kb.
Proof.
  unfold unknownBits. change (BitWidth (Zero (resolve kb))) with (BitWidth (Zero kb)).
  apply list_filter_iff. intros k.
  unfold isUnknown. destruct (resolve_bits kb k) as [-> ->].
  by destruct (bit (Zero kb) k), (bit (One kb) k).
Qed.

(** [concretization] reads the Zero mask only where the One mask is clear. *)
Lemma concretization_resolve kb w :
  hasWidth w kb → numUnknown kb < 64 →
  concretization (resolve kb) = concretization kb.
Proof.
  intros Hwf Hk.
  rewrite (concretization_spec kb w), (concretization_spec (resolve kb) w);
    try done; try by apply resolve_hasWidth.
  - unfold numUnknown. by rewrite resolve_unknownBits.
  - unfold numUnknown. by rewrite resolve_unknownBits.
Qed.

(** X4.  With or without conflicts: for every state of width [w] with fewer
    than 64 Unknown bits, [abstraction (concretization (kb))] returns [kb]
    with each conflicting bit turned into a One bit. *)
Theorem roundtrip_resolves_conflicts kb w :
  hasWidth w kb → numUnknown kb < 64 →
  concretization kb ≫= abstraction = Some (resolve kb).
Proof.
  intros Hwf Hk. rewrite <- (concretization_resolve kb w) by done.
  destruct (roundtrip (resolve kb) w) as (l & -> & Habs); try done.
  - by apply resolve_hasWidth.
  - apply resolve_noConflict.
  - unfold numUnknown. by rewrite resolve_unknownBits.
Qed.

Lemma roundtrip_resolves_conflicts_witness :
  concretization (mkKnownBits (mkAPInt 2 3) (mkAPInt 2 1)) ≫= abstraction
  = Some (mkKnownBits (mkAPInt 2 2) (mkAPInt 2 1)).
Proof.
  apply (roundtrip_resolves_conflicts (mkKnownBits (mkAPInt 2 3) (mkAPInt 2 1)) 2).
  - unfold hasWidth, wfAPInt. simpl. lia.
  - vm_compute. reflexivity.
Defined.

Lemma refines_consistent a b v : refines a b → consistent v a → consistent v b.
Proof.
  intros Hab Hva k Hk. destruct (Hab k Hk) as [Hz Ho], (Hva k Hk) as [Hvz Hvo].
  split; auto.
Qed.

(** X5.  A state that knows more stands for fewer values: when [a] knows
    every bit [b] knows, every value of [concretization (a)] is a value of
    [concretization (b)]. *)
Theorem concretization_antitone a b w la lb :
  hasWidth w a → noConflict a → hasWidth w b → noConflict b →
  refines a b →
  concretization a = Some la → concretization b = Some lb →
  la ⊆ lb.
Proof.
  intros Ha Hnca Hb Hncb Hab Hla Hlb v Hv.
  pose proof (concretization_Some_inv a w la Ha Hla) as Hka.
  pose proof (concretization_Some_inv b w lb Hb Hlb) as Hkb.
  apply (concretization_elem_of a w la v Ha Hnca Hka Hla) in Hv as [Hval Hc].
  apply (concretization_elem_of b w lb v Hb Hncb Hkb Hlb).
  split; [done | by eapply refines_consistent].
Qed.

Lemma concretization_antitone_witness :
  [mkAPInt 2 1] ⊆ [mkAPInt 2 1; mkAPInt 2 3].
Proof.
  apply (concretization_antitone (mkKnownBits (mkAPInt 2 2) (mkAPInt 2 1))
                                 (mkKnownBits (mkAPInt 2 0) (mkAPInt 2 1)) 2).
  - unfold hasWidth, wfAPInt. simpl. lia.
  - reflexivity.
  - unfold hasWidth, wfAPInt. simpl. lia.
  - reflexivity.
  - intros k Hk. unfold bit. simpl. rewrite Z.bits_0. split; [done|]. done.
  - vm_compute. reflexivity.
  - vm_compute. reflexivity.
Defined.

(** ** The order of the concrete values *)

(** Two numbers that agree above bit [m] compare as their bits at [m]. *)
Lemma bits_lt x y m :
  0 ≤ m → Z.testbit x m = false → Z.testbit y m = true →
  (∀ p, m < p → Z.testbit x p = Z.testbit y p) → x < y.
Proof.
  intros Hm Hx Hy Hhigh.
  assert (0 < 2 ^ m) as Hpos by (apply Z.pow_pos_nonneg; lia).
  assert (x / 2 ^ Z.succ m = y / 2 ^ Z.succ m) as Hq.
  { apply Z.bits_inj'. intros p Hp. rewrite !Z.div_pow2_bits by lia. apply Hhigh. lia. }
  assert (∀ a, a mod 2 ^ Z.succ m = a mod 2 ^ m + 2 ^ m * Z.b2z (Z.testbit a m)) as Hmod.
  { intros a. rewrite Z.testbit_spec' by done.
    rewrite Z.pow_succ_r, (Z.mul_comm 2) by done. apply Z.rem_mul_r; lia. }
  pose proof (Hmod x) as Hrx. pose proof (Hmod y) as Hry.
  rewrite Hx in Hrx. rewrite Hy in Hry. simpl Z.b2z in *.
  pose proof (Z.mod_pos_bound x (2 ^ m) Hpos). pose proof (Z.mod_pos_bound y (2 ^ m) Hpos).
  rewrite (Z.div_mod x (2 ^ Z.succ m)), (Z.div_mod y (2 ^ Z.succ m))
    by (apply Z.pow_nonzero; lia).
  rewrite Hq, Hrx, Hry. lia.
Qed.

(** Below the highest bit where they differ, the smaller of two numbers has
    the 0. *)
Lemma highest_difference i j :
  0 ≤ i < j →
  ∃ t, 0 ≤ t ∧ Z.testbit i t = false ∧ Z.testbit j t = true ∧
       ∀ p, t < p → Z.testbit i p = Z.testbit j p.
Proof.
  intros Hij. set (d := Z.lxor i j).
  assert (0 ≤ d) as Hd0 by (apply Z.lxor_nonneg; lia).
  assert (d ≠ 0) as Hd by (intros Heq%Z.lxor_eq; lia).
  pose proof (Z.log2_nonneg d) as Ht.
  assert (Z.testbit d (Z.log2 d) = true) as Htop by (apply Z.bit_log2; lia).
  assert (∀ p, Z.log2 d < p → Z.testbit i p = Z.testbit j p) as Hhigh.
  { intros p Hp. pose proof (Z.bits_above_log2 d p Hd0 Hp) as Hb.
    unfold d in Hb. rewrite Z.lxor_spec in Hb.
    by destruct (Z.testbit i p), (Z.testbit j p). }
  exists (Z.log2 d). split; [done|].
  unfold d in Htop. rewrite Z.lxor_spec in Htop. fold d in Htop.
  destruct (Z.testbit i (Z.log2 d)) eqn:Ei, (Z.testbit j (Z.log2 d)) eqn:Ej; try done.
  exfalso. assert (j < i); [|lia].
  apply (bits_lt j i (Z.log2 d)); try done. intros p Hp. symmetry. by apply Hhigh.
Qed.

(** Bit [t] of the round index lands at the unknown position number [t]. *)
Lemma scatter_inside idxs i v t p :
  NoDup idxs → (∀ idx, idx ∈ idxs → 0 ≤ idx) →
  idxs !! t = Some p →
  Z.testbit (scatter idxs i v) p = Z.testbit i (Z.of_nat t).
Proof.
  intros Hnd. revert i v t. induction Hnd as [|idx idxs Hidx Hnd IH]; intros i v t Hpos Ht.
  - done.
  - assert (0 ≤ idx) by (apply Hpos; left). simpl scatter. destruct t as [|t].
    + simpl in Ht. simplify_eq.
      rewrite scatter_outside by (try done; intros; apply Hpos; by right).
      rewrite <- Z.bit0_odd. change (Z.of_nat 0) with 0.
      destruct (Z.testbit i 0).
      * rewrite setbit_bits, Z.eqb_refl by done. reflexivity.
      * rewrite clearbit_bits, Z.eqb_refl by done. apply andb_false_r.
    + simpl in Ht. rewrite (IH _ _ t) by (try done; intros; apply Hpos; by right).
      change 2 with (2 ^ 1). rewrite Z.div_pow2_bits by lia. f_equal. lia.
Qed.

Lemma unknownBits_increasing kb t t' p p' :
  unknownBits kb !! t = Some p → unknownBits kb !! t' = Some p' → (t < t')%nat → p < p'.
Proof.
  unfold unknownBits. generalize (BitWidth (Zero kb)). intros w.
  destruct (Z.le_gt_cases 0 w) as [Hw|Hw]; [|by rewrite seqZ_nil by lia].
  rewrite <- (Z2Nat.id w) by done. revert t t' p p'.
  induction (Z.to_nat w) as [|n IH]; intros t t' p p' Ht Ht' Hlt; [done|].
  rewrite seqZ_S, filter_app in Ht, Ht'.
  set (l := filter (λ k, isUnknown kb k = true) (seqZ 0 (Z.of_nat n))) in *.
  assert (∀ s q, l !! s = Some q → q < Z.of_nat n) as Hlow.
  { intros s q Hq. apply list_elem_of_lookup_2, list_elem_of_filter in Hq as [_ Hq].
    apply elem_of_seqZ in Hq. lia. }
  assert (∀ s q, (length l ≤ s)%nat →
            (l ++ filter (λ k, isUnknown kb k = true) [0 + Z.of_nat n]) !! s = Some q →
            s = length l ∧ q = Z.of_nat n) as Hhigh.
  { intros s q Hs Hq. rewrite lookup_app_r in Hq by done.
    rewrite filter_cons, filter_nil in Hq. case_decide; [|done].
    apply list_lookup_singleton_Some in Hq as [? <-]. lia. }
  destruct (Nat.lt_ge_cases t' (length l)) as [Hin'|Hout'].
  - rewrite lookup_app_l in Ht, Ht' by lia. by apply (IH t t').
  - apply Hhigh in Ht' as [-> ->]; [|done].
    rewrite lookup_app_l in Ht by done. by apply (Hlow t).
Qed.

(** X6.  [concretization] lists the values in strictly increasing unsigned
    order. *)
Theorem concretization_increasing kb w l i j vi vj :
  hasWidth w kb → concretization kb = Some l →
  l !! i = Some vi → l !! j = Some vj → (i < j)%nat →
  Val vi < Val vj.
Proof.
  intros Hwf Hl Hi Hj Hij.
  pose proof (concretization_Some_inv kb w l Hwf Hl) as Hk.
  rewrite (concretization_spec kb w) in Hl by done. simplify_eq.
  rewrite list_lookup_fmap in Hi, Hj.
  destruct (seqZ 0 (2 ^ numUnknown kb) !! i) as [a|] eqn:Ha; [|done].
  destruct (seqZ 0 (2 ^ numUnknown kb) !! j) as [b|] eqn:Hb; [|done].
  apply lookup_seqZ in Ha as [-> Ha]. apply lookup_seqZ in Hb as [-> Hb].
  simpl in Hi, Hj. simplify_eq. simpl. rewrite !Z.add_0_l.
  assert (∀ idx, idx ∈ unknownBits kb → 0 ≤ idx) as Hpos
    by (intros idx Hidx; apply unknownBits_spec in Hidx; lia).
  destruct (highest_difference (Z.of_nat i) (Z.of_nat j)) as (t & Ht & Hbi & Hbj & Hhigh);
    [lia|].
  assert (t < numUnknown kb) as Htk.
  { destruct (Z.lt_ge_cases t (numUnknown kb)); [done|].
    rewrite (bounded_bits (numUnknown kb) (Z.of_nat j) t) in Hbj by lia. done. }
  unfold numUnknown in Htk.
  destruct (lookup_lt_is_Some_2 (unknownBits kb) (Z.to_nat t)) as [p Hp]; [lia|].
  apply (bits_lt _ _ p).
  - apply Hpos. by eapply list_elem_of_lookup_2.
  - rewrite (scatter_inside _ _ _ (Z.to_nat t) p), Z2Nat.id;
      [done | lia | apply unknownBits_NoDup | done | done].
  - rewrite (scatter_inside _ _ _ (Z.to_nat t) p), Z2Nat.id;
      [done | lia | apply unknownBits_NoDup | done | done].
  - intros q Hq. destruct (decide (q ∈ unknownBits kb)) as [Hin|Hout].
    + apply list_elem_of_lookup in Hin as [t' Ht'].
      rewrite !(scatter_inside _ _ _ t' q) by (done || apply unknownBits_NoDup).
      apply Hhigh. destruct (Nat.lt_ge_cases (Z.to_nat t) t') as [|Hle]; [lia|].
      exfalso. destruct (decide (t' = Z.to_nat t)) as [->|Hne]; [simplify_eq; lia|].
      pose proof (unknownBits_increasing kb t' (Z.to_nat t) q p Ht' Hp).
      lia.
    + by rewrite !scatter_outside.
Qed.

Lemma concretization_increasing_witness :
  Val (mkAPInt 2 1) < Val (mkAPInt 2 3).
Proof.
  apply (concretization_increasing (mkKnownBits (mkAPInt 2 0) (mkAPInt 2 1)) 2
           [mkAPInt 2 1; mkAPInt 2 3] 0 1).
  - unfold hasWidth, wfAPInt. simpl. lia.
  - vm_compute. reflexivity.
  - reflexivity.
  - reflexivity.
  - lia.
Defined.

(** X7.  The first value of [concretization (kb)] is [kb.One], every
    Unknown bit clear, and the last one is [~kb.Zero], every Unknown bit
    set: with the order above, the least and the greatest value. *)
Theorem concretization_first_last kb w l :
  hasWidth w kb → noConflict kb → concretization kb = Some l →
  head l = Some (One kb) ∧ last l = Some (APInt.not (Zero kb)).
Proof.
  intros Hwf Hnc Hl.
  pose proof (concretization_Some_inv kb w l Hwf Hl) as Hk.
  rewrite (concretization_spec kb w) in Hl by done. simplify_eq.
  destruct Hwf as ([Hw HvZ] & [_ HvO] & HwZ & HwO).
  pose proof (numUnknown_nonneg kb) as Hk0.
  assert (0 < 2 ^ numUnknown kb) as Hpos by (by apply Z.pow_pos_nonneg).
  assert (∀ idx, idx ∈ unknownBits kb → 0 ≤ idx) as HposU
    by (intros idx Hidx; apply unknownBits_spec in Hidx; lia).
  split.
  - rewrite seqZ_cons by done. cbn [fmap list_fmap head].
    destruct kb as [z [wo o]]. cbn [One Zero BitWidth Val] in *. subst wo.
    do 2 f_equal. apply Z.bits_inj'. intros p Hp.
    destruct (decide (p ∈ unknownBits (mkKnownBits z (mkAPInt w o)))) as [Hin|Hout].
    + pose proof Hin as Hunk. apply unknownBits_spec in Hunk as [_ Hunk].
      apply list_elem_of_lookup in Hin as [t Ht].
      rewrite (scatter_inside _ _ _ t p) by (done || apply unknownBits_NoDup).
      rewrite Z.bits_0. unfold isUnknown, bit in Hunk. cbn [One Val] in Hunk.
      by destruct (Z.testbit o p); [rewrite andb_false_r in Hunk|].
    + by rewrite scatter_outside.
  - replace (2 ^ numUnknown kb) with ((2 ^ numUnknown kb - 1) + 1) by lia.
    rewrite seqZ_app, fmap_app, Z.add_0_l by lia.
    change (seqZ (2 ^ numUnknown kb - 1) 1) with [2 ^ numUnknown kb - 1].
    cbn [fmap list_fmap]. rewrite last_snoc. unfold APInt.not. rewrite HwZ.
    do 2 f_equal. apply Z.bits_inj'. intros p Hp. rewrite not_bits by lia.
    destruct (decide (p ∈ unknownBits kb)) as [Hin|Hout].
    + pose proof Hin as Hunk. apply unknownBits_spec in Hunk as [Hpw Hunk].
      apply list_elem_of_lookup in Hin as [t Ht].
      rewrite (scatter_inside _ _ _ t p) by (done || apply unknownBits_NoDup).
      replace (2 ^ numUnknown kb - 1) with (Z.ones (numUnknown kb))
        by (rewrite Z.ones_equiv; lia).
      rewrite Z.testbit_ones_nonneg by lia.
      apply lookup_lt_Some in Ht. unfold numUnknown, isUnknown, bit in *.
      destruct (Z.testbit (Val (Zero kb)) p); [done|].
      destruct (Z.ltb_spec p w), (Z.ltb_spec (Z.of_nat t) (Z.of_nat (length (unknownBits kb))));
        (done || lia).
    + rewrite scatter_outside by done.
      destruct (Z.ltb_spec p w) as [Hpw|Hpw].
      * assert (isUnknown kb p = false) as Hknown.
        { destruct (isUnknown kb p) eqn:Hunk; [|done]. exfalso. apply Hout.
          apply unknownBits_spec. split; [lia | done]. }
        unfold isUnknown in Hknown. fold (bit (One kb) p). fold (bit (Zero kb) p).
        destruct (bit (Zero kb) p) eqn:Hz.
        -- by rewrite (noConflict_bits kb p Hnc Hz).
        -- simpl in *. by apply negb_false_iff in Hknown.
      * simpl. apply (bounded_bits w); [|done]. by rewrite <- HwO.
Qed.

Lemma concretization_first_last_witness :
  head [mkAPInt 2 1; mkAPInt 2 3] = Some (mkAPInt 2 1) ∧
  last [mkAPInt 2 1; mkAPInt 2 3] = Some (APInt.not (mkAPInt 2 0)).
Proof.
  apply (concretization_first_last (mkKnownBits (mkAPInt 2 0) (mkAPInt 2 1)) 2).
  - unfold hasWidth, wfAPInt. simpl. lia.
  - reflexivity.
  - vm_compute. reflexivity.
Defined.

(** ** More on [abstraction] *)

Lemma absorb_defined w values knownZero knownOne :
  BitWidth knownZero = w → BitWidth knownOne = w →
  Forall (λ v, BitWidth v = w) values →
  ∃ knownZero' knownOne',
    forM (absorb w) values (knownZero, knownOne) = Some (knownZero', knownOne') ∧
    BitWidth knownZero' = w ∧ BitWidth knownOne' = w.
Proof.
  intros Hz Ho Hall. revert knownZero knownOne Hz Ho.
  induction Hall as [|v values Hv Hall IH]; intros knownZero knownOne Hz Ho.
  - by exists knownZero, knownOne.
  - simpl forM. unfold absorb at 1, APInt.and. simpl.
    rewrite Hv, Hz, Ho, !Z.eqb_refl. simpl. by apply IH.
Qed.

Lemma abstraction_widths values kb :
  abstraction values = Some kb →
  BitWidth (One kb) = BitWidth (Zero kb) ∧
  Forall (λ v, BitWidth v = BitWidth (Zero kb)) values.
Proof.
  intros Habs. unfold abstraction in Habs.
  destruct values as [|first rest]; [done|].
  rewrite bool_decide_eq_false_2 in Habs by done.
  change (head (first :: rest)) with (Some first) in Habs.
  cbn [mbind option_bind check negb] in Habs.
  destruct (forM (absorb (BitWidth first)) (first :: rest) _) as [[kz ko]|] eqn:Hloop;
    [|done].
  simpl in Habs. simplify_eq. simpl.
  pose proof (absorb_loop_widths _ _ _ _ Hloop) as Hall.
  destruct (absorb_defined (BitWidth first) (first :: rest)
              (APInt.getAllOnes (BitWidth first)) (APInt.getAllOnes (BitWidth first)))
    as (kz' & ko' & Hloop' & Hz & Ho); [done..|].
  rewrite Hloop in Hloop'. simplify_eq. rewrite Hz, Ho. done.
Qed.

(** X8.  [abstraction] returns exactly on a list that is not empty and whose
    values all have one width; on any other list an [assert] fails. *)
Theorem abstraction_defined_iff values :
  is_Some (abstraction values) ↔
  values ≠ [] ∧ ∃ w, Forall (λ v, BitWidth v = w) values.
Proof.
  split.
  - intros [kb Hkb]. by apply abstraction_Some_inv in Hkb.
  - intros [Hne [w Hall]]. unfold abstraction.
    destruct values as [|first rest]; [done|].
    rewrite bool_decide_eq_false_2 by done.
    change (head (first :: rest)) with (Some first).
    cbn [mbind option_bind check negb].
    assert (BitWidth first = w) as Hw by (by inversion Hall). rewrite Hw.
    destruct (absorb_defined w (first :: rest) (APInt.getAllOnes w) (APInt.getAllOnes w))
      as (kz & ko & Hloop & _); [done..|].
    rewrite Hloop. by eexists.
Qed.

(** X9.  The abstraction of two lists joined is what the abstractions of
    the two lists both know. *)
Theorem abstraction_app l1 l2 a b :
  abstraction l1 = Some a → abstraction l2 = Some b →
  BitWidth (Zero a) = BitWidth (Zero b) → 0 ≤ BitWidth (Zero a) →
  abstraction (l1 ++ l2) = Some (common a b).
Proof.
  intros Ha Hb Hab Hw. set (w := BitWidth (Zero a)) in *.
  destruct (abstraction_widths _ _ Ha) as [Hoa Hall1].
  destruct (abstraction_widths _ _ Hb) as [Hob Hall2]. rewrite <- Hab in Hall2, Hob.
  destruct (abstraction_Some_inv _ _ Ha) as [Hne1 _].
  destruct (abstraction_result l1 a w Hw Hall1 Ha) as (_ & _ & Hbits1).
  destruct (abstraction_result l2 b w Hw Hall2 Hb) as (_ & _ & Hbits2).
  destruct (abstraction_best (l1 ++ l2) w) as (kb & Hkb & Hz & Ho & Hbits); [done | |  |].
  { by destruct l1. }
  { by apply Forall_app. }
  rewrite Hkb. f_equal. apply KnownBits_eq; [simpl; lia..|].
  intros p Hp. destruct (Hbits p Hp) as [HZ HO].
  destruct (Hbits1 p Hp) as [HZ1 HO1]. destruct (Hbits2 p Hp) as [HZ2 HO2].
  unfold common, bit in *. cbn [Zero One Val].
  rewrite !Z.land_spec, !andb_true_iff, HZ, HO, HZ1, HO1, HZ2, HO2.
  setoid_rewrite elem_of_app. intuition auto.
Qed.

Lemma abstraction_app_witness :
  abstraction ([mkAPInt 2 1] ++ [mkAPInt 2 3])
  = Some (common (mkKnownBits (mkAPInt 2 2) (mkAPInt 2 1))
                 (mkKnownBits (mkAPInt 2 0) (mkAPInt 2 3))).
Proof.
  apply abstraction_app.
  - vm_compute. reflexivity.
  - vm_compute. reflexivity.
  - reflexivity.
  - simpl. lia.
Defined.

(** X10.  [abstraction] depends on which values the list holds, not on their
    order or on how often each one occurs. *)
Theorem abstraction_same_values l1 l2 kb :
  (∀ v, v ∈ l1 ↔ v ∈ l2) → 0 ≤ BitWidth (Zero kb) →
  abstraction l1 = Some kb → abstraction l2 = Some kb.
Proof.
  intros Hsame Hw Hkb. set (w := BitWidth (Zero kb)) in *.
  destruct (abstraction_widths _ _ Hkb) as [Ho Hall1].
  destruct (abstraction_Some_inv _ _ Hkb) as [Hne1 _].
  destruct (abstraction_result l1 kb w Hw Hall1 Hkb) as (_ & _ & Hbits1).
  assert (Forall (λ v, BitWidth v = w) l2) as Hall2.
  { apply Forall_forall. intros v Hv. apply Hsame in Hv.
    by eapply Forall_forall in Hall1. }
  assert (l2 ≠ []) as Hne2.
  { destruct l1 as [|v l1]; [done|]. intros ->.
    by apply (not_elem_of_nil v), Hsame; left. }
  destruct (abstraction_best l2 w Hw Hne2 Hall2) as (kb2 & Hkb2 & Hz2 & Ho2 & Hbits2).
  rewrite Hkb2. f_equal. apply KnownBits_eq; [lia..|].
  intros p Hp. destruct (Hbits1 p Hp) as [HZ1 HO1]. destruct (Hbits2 p Hp) as [HZ2 HO2].
  rewrite HZ1, HO1, HZ2, HO2. setoid_rewrite Hsame. done.
Qed.

Lemma abstraction_same_values_witness :
  abstraction [mkAPInt 2 3; mkAPInt 2 1; mkAPInt 2 3]
  = Some (mkKnownBits (mkAPInt 2 0) (mkAPInt 2 1)).
Proof.
  apply (abstraction_same_values [mkAPInt 2 1; mkAPInt 2 3]).
  - intros v. rewrite !elem_of_cons, !elem_of_nil. tauto.
  - simpl. lia.
  - vm_compute. reflexivity.
Defined.

(** X11.  The concretization of the abstraction of a list holds every value
    of the list. *)
Theorem abstraction_extensive values w kb :
  Forall (isValue w) values → abstraction values = Some kb → numUnknown kb < 64 →
  ∃ l, concretization kb = Some l ∧ values ⊆ l.
Proof.
  intros Hvals Hkb Hk.
  destruct (abstraction_Some_inv _ _ Hkb) as [Hne _].
  assert (0 ≤ w < 2 ^ 32) as Hw.
  { destruct values as [|v ?]; [done|]. inversion Hvals as [|? ? [[Hv _] <-]]. done. }
  assert (Forall (λ v, BitWidth v = w) values) as Hall
    by (eapply Forall_impl; [done|]; by intros v [_ ?]).
  destruct (abstraction_result values kb w ltac:(lia) Hall Hkb) as (Hz & Ho & Hbits).
  pose proof (best_hasWidth w values kb Hbits Hw Hz Ho) as Hwf.
  pose proof (best_noConflict w values kb Hbits Hne) as Hnc.
  destruct (concretization kb) as [l|] eqn:Hl.
  - exists l. split; [done|]. intros v Hv.
    apply (concretization_elem_of kb w l v Hwf Hnc Hk Hl). split.
    + by eapply Forall_forall in Hvals.
    + by apply (best_consistent w values kb Hbits).
  - rewrite (concretization_spec kb w) in Hl by done. done.
Qed.

Lemma abstraction_extensive_witness :
  ∃ l, concretization (mkKnownBits (mkAPInt 2 0) (mkAPInt 2 0)) = Some l ∧
       [mkAPInt 2 1; mkAPInt 2 2] ⊆ l.
Proof.
  apply (abstraction_extensive [mkAPInt 2 1; mkAPInt 2 2] 2).
  - repeat constructor; simpl; lia.
  - vm_compute. reflexivity.
  - vm_compute. reflexivity.
Defined.

Lemma abstraction_single w v :
  isValue w v → abstraction [v] = Some (mkKnownBits (APInt.not v) v).
Proof.
  intros [[Hw Hv] Hwv]. rewrite Hwv in *.
  destruct (abstraction_best [v] w) as (kb & Hkb & Hz & Ho & Hbits);
    [lia | done | by repeat constructor |].
  rewrite Hkb. f_equal.
  apply KnownBits_eq; [simpl; lia..|]. intros p Hp. destruct (Hbits p Hp) as [HZ HO].
  rewrite HZ, HO. unfold bit, APInt.not. cbn [Zero One Val]. rewrite Hwv.
  rewrite not_bits by lia. setoid_rewrite list_elem_of_singleton.
  destruct (Z.ltb_spec p w) as [Hpw|Hpw].
  - simpl. rewrite negb_true_iff. split; (split; [intros [_ H]; by apply H | intros H]);
      (split; [done|]; by intros ? ->).
  - rewrite (bounded_bits w (Val v) p) by done. simpl.
    split; (split; [lia | done]).
Qed.

Lemma single_hasWidth w v : isValue w v → hasWidth w (mkKnownBits (APInt.not v) v).
Proof.
  intros [[Hw Hv] Hwv]. rewrite Hwv in *.
  unfold hasWidth, wfAPInt, APInt.not. cbn [Zero One BitWidth Val].
  rewrite Hwv, Z.land_ones by lia. pose proof (Z.mod_pos_bound (Z.lnot (Val v)) (2 ^ w)).
  assert (0 < 2 ^ w) by (apply Z.pow_pos_nonneg; lia). lia.
Qed.

Lemma single_numUnknown w v : isValue w v → numUnknown (mkKnownBits (APInt.not v) v) = 0.
Proof.
  intros [[Hw Hv] Hwv]. rewrite Hwv in *.
  unfold numUnknown. destruct (unknownBits _) as [|k ks] eqn:Hks; [done|].
  assert (k ∈ unknownBits (mkKnownBits (APInt.not v) v)) as Hin by (rewrite Hks; left).
  apply unknownBits_spec in Hin as [Hk Hunk]. exfalso.
  unfold isUnknown, bit, APInt.not in *. cbn [Zero One BitWidth Val] in *.
  rewrite Hwv in *. rewrite not_bits in Hunk by lia.
  destruct (Z.ltb_spec k w); [|lia]. by destruct (Z.testbit (Val v) k).
Qed.

(** X12.  The abstraction of a single value knows every bit, and its
    concretization is that value alone. *)
Theorem abstraction_singleton w v :
  isValue w v →
  abstraction [v] = Some (mkKnownBits (APInt.not v) v) ∧
  abstraction [v] ≫= concretization = Some [v].
Proof.
  intros Hv. rewrite (abstraction_single w v Hv). split; [done|]. simpl.
  by rewrite (concretization_known _ w)
    by (by apply single_hasWidth || by apply (single_numUnknown w)).
Qed.

Lemma abstraction_singleton_witness :
  abstraction [mkAPInt 3 5] = Some (mkKnownBits (APInt.not (mkAPInt 3 5)) (mkAPInt 3 5)) ∧
  abstraction [mkAPInt 3 5] ≫= concretization = Some [mkAPInt 3 5].
Proof.
  apply (abstraction_singleton 3). unfold isValue, wfAPInt. simpl. lia.
Defined.

(** X13.  The copy in [main.cpp] never learns a Zero bit: it returns the One
    mask of the copy in [testMulhs.cpp] beside an empty Zero mask. *)
Theorem main_abstraction_no_zero values kb :
  abstraction values = Some kb → 0 ≤ BitWidth (Zero kb) →
  MainCpp.abstraction values
  = Some (mkKnownBits (APInt.getZero (BitWidth (Zero kb))) (One kb)).
Proof.
  intros Hkb Hw. set (w := BitWidth (Zero kb)) in *.
  destruct (abstraction_widths _ _ Hkb) as [Ho Hall].
  destruct (abstraction_Some_inv _ _ Hkb) as [Hne _].
  destruct (abstraction_spec values w Hw Hne Hall) as (kb1 & Hkb1 & _ & _ & Hbits1).
  rewrite Hkb in Hkb1. simplify_eq.
  destruct (main_abstraction_spec values w Hw Hne Hall) as (kb2 & Hkb2 & Hz2 & Ho2 & Hbits2).
  rewrite Hkb2. f_equal. apply KnownBits_eq; [simpl; lia..|].
  intros p Hp. destruct (Hbits1 p Hp) as [_ HO1]. destruct (Hbits2 p Hp) as [HZ2 HO2].
  cbn [Zero One]. rewrite HZ2, HO2, HO1. unfold bit. cbn [Val APInt.getZero].
  by rewrite Z.bits_0.
Qed.

Lemma main_abstraction_no_zero_witness :
  MainCpp.abstraction [mkAPInt 2 1; mkAPInt 2 3]
  = Some (mkKnownBits (APInt.getZero 2) (mkAPInt 2 1)).
Proof.
  apply (main_abstraction_no_zero _ (mkKnownBits (mkAPInt 2 0) (mkAPInt 2 1))).
  - vm_compute. reflexivity.
  - simpl. lia.
Defined.

(** X14.  [abstraction] is monotone: of a list whose values all occur in
    another list it knows every bit that it knows of the other list. *)
Theorem abstraction_monotone l1 l2 a b :
  l1 ⊆ l2 → abstraction l1 = Some a → abstraction l2 = Some b →
  0 ≤ BitWidth (Zero b) → refines a b.
Proof.
  intros Hsub Ha Hb Hw. set (w := BitWidth (Zero b)) in *.
  destruct (abstraction_widths _ _ Hb) as [_ Hall2].
  destruct (abstraction_Some_inv _ _ Ha) as [Hne1 _].
  assert (Forall (λ v, BitWidth v = w) l1) as Hall1.
  { apply Forall_forall. intros v Hv. apply Hsub in Hv. by eapply Forall_forall in Hall2. }
  destruct (abstraction_result l1 a w Hw Hall1 Ha) as (_ & _ & Hbits1).
  destruct (abstraction_result l2 b w Hw Hall2 Hb) as (_ & _ & Hbits2).
  intros k Hk. destruct (Hbits1 k Hk) as [HZ1 HO1]. destruct (Hbits2 k Hk) as [HZ2 HO2].
  rewrite HZ1, HO1, HZ2, HO2.
  split; intros [Hkw Hv]; (split; [done|]); intros v Hin; by apply Hv, Hsub.
Qed.

Lemma abstraction_monotone_witness :
  refines (mkKnownBits (mkAPInt 2 2) (mkAPInt 2 1)) (mkKnownBits (mkAPInt 2 0) (mkAPInt 2 1)).
Proof.
  apply (abstraction_monotone [mkAPInt 2 1] [mkAPInt 2 1; mkAPInt 2 3]).
  - intros v ->%list_elem_of_singleton. left.
  - vm_compute. reflexivity.
  - vm_compute. reflexivity.
  - simpl. lia.
Defined.

(** ** More on [naiveMulhs] *)

Lemma naiveMulhs_Some_inv lhs rhs w r :
  hasWidth w lhs → hasWidth w rhs → naiveMulhs lhs rhs = Some r →
  numUnknown lhs < 64 ∧ numUnknown rhs < 64 ∧ 1 ≤ w < 2 ^ 31.
Proof.
  intros Hl Hr Hrun.
  destruct (naiveMulhs_rows lhs rhs w r Hl Hr Hrun) as (cl & cr & rows & Hcl & Hcr & Hrows & _).
  split; [by eapply concretization_Some_inv|]. split; [by eapply concretization_Some_inv|].
  pose proof (concretization_nonempty lhs w cl Hl Hcl) as Hne.
  pose proof (concretization_nonempty rhs w cr Hr Hcr) as Hne'.
  destruct cl as [|a cl]; [done|]. destruct cr as [|b cr]; [done|].
  destruct (rows_complete w (a :: cl) (b :: cr) rows a b Hrows) as (h & Hh & _);
    [left | left |].
  assert (isValue w a) as [_ Hwa]
    by (apply (concretization_isValue lhs w (a :: cl) a Hl Hcl); left).
  destruct Hl as ([Hw _] & _ & Hz & _). rewrite Hz in Hw.
  by apply (mulhsPair_Some_width w a b h).
Qed.

Lemma naiveMulhs_bits lhs rhs w r cl cr :
  hasWidth w lhs → hasWidth w rhs → naiveMulhs lhs rhs = Some r →
  concretization lhs = Some cl → concretization rhs = Some cr →
  ∀ p, 0 ≤ p →
    (bit (Zero r) p = true ↔
       p < w ∧ ∀ a b, a ∈ cl → b ∈ cr → bit (mulhsExact w a b) p = false) ∧
    (bit (One r) p = true ↔
       p < w ∧ ∀ a b, a ∈ cl → b ∈ cr → bit (mulhsExact w a b) p = true).
Proof.
  intros Hl Hr Hrun Hcl Hcr p Hp.
  destruct (naiveMulhs_Some_inv lhs rhs w r Hl Hr Hrun) as (_ & _ & Hw).
  destruct (naiveMulhs_rows lhs rhs w r Hl Hr Hrun)
    as (cl' & cr' & rows & Hcl' & Hcr' & Hrows & Habs & Hall).
  rewrite Hcl in Hcl'. rewrite Hcr in Hcr'. simplify_eq.
  destruct (abstraction_result (concat rows) r w ltac:(lia) Hall Habs) as (_ & _ & Hbits).
  destruct (Hbits p Hp) as [HZ HO]. rewrite HZ, HO.
  assert (∀ a b, a ∈ cl' → b ∈ cr' → mulhsPair w a b = Some (mulhsExact w a b)) as Hexact.
  { intros a b Ha Hb. apply mulhsPair_exact; [done | |].
    - by apply (concretization_isValue lhs w cl').
    - by apply (concretization_isValue rhs w cr'). }
  split; (split; intros [Hpw Hv]; (split; [done|])).
  - intros a b Ha Hb. destruct (rows_complete w cl' cr' rows a b Hrows Ha Hb) as (h & Hh & Hin).
    rewrite Hexact in Hh by done. simplify_eq. by apply Hv.
  - intros v Hin. destruct (rows_sound w cl' cr' rows v Hrows Hin) as (a & b & Ha & Hb & Hh).
    rewrite Hexact in Hh by done. simplify_eq. by apply Hv.
  - intros a b Ha Hb. destruct (rows_complete w cl' cr' rows a b Hrows Ha Hb) as (h & Hh & Hin).
    rewrite Hexact in Hh by done. simplify_eq. by apply Hv.
  - intros v Hin. destruct (rows_sound w cl' cr' rows v Hrows Hin) as (a & b & Ha & Hb & Hh).
    rewrite Hexact in Hh by done. simplify_eq. by apply Hv.
Qed.

(** X16.  [naiveMulhs] returns the most precise sound state: it knows every
    bit that any state of the same width consistent with all the products
    knows. *)
Theorem naiveMulhs_optimal lhs rhs w r cl cr s :
  hasWidth w lhs → hasWidth w rhs → naiveMulhs lhs rhs = Some r →
  concretization lhs = Some cl → concretization rhs = Some cr →
  hasWidth w s →
  (∀ a b, a ∈ cl → b ∈ cr → consistent (mulhsExact w a b) s) →
  refines r s.
Proof.
  intros Hl Hr Hrun Hcl Hcr Hs Hsound k Hk.
  destruct (naiveMulhs_bits lhs rhs w r cl cr Hl Hr Hrun Hcl Hcr k Hk) as [HZ HO].
  rewrite HZ, HO.
  destruct Hs as ([_ HvZ] & [_ HvO] & HwZ & HwO). rewrite HwZ in HvZ. rewrite HwO in HvO.
  split; intros Hbit; (split;
    [destruct (Z.lt_ge_cases k w); [done|]; unfold bit in Hbit;
     by rewrite (bounded_bits w _ k) in Hbit |]);
    intros a b Ha Hb; destruct (Hsound a b Ha Hb k Hk) as [Hz Ho]; auto.
Qed.

Lemma naiveMulhs_optimal_witness :
  refines (mkKnownBits (mkAPInt 2 3) (mkAPInt 2 0)) (mkKnownBits (mkAPInt 2 2) (mkAPInt 2 0)).
Proof.
  apply (naiveMulhs_optimal (mkKnownBits (mkAPInt 2 2) (mkAPInt 2 1))
                            (mkKnownBits (mkAPInt 2 2) (mkAPInt 2 1)) 2 _
                            [mkAPInt 2 1] [mkAPInt 2 1]).
  - unfold hasWidth, wfAPInt. simpl. lia.
  - unfold hasWidth, wfAPInt. simpl. lia.
  - vm_compute. reflexivity.
  - vm_compute. reflexivity.
  - vm_compute. reflexivity.
  - unfold hasWidth, wfAPInt. simpl. lia.
  - intros a b ->%list_elem_of_singleton ->%list_elem_of_singleton k Hk.
    change (mulhsExact 2 (mkAPInt 2 1) (mkAPInt 2 1)) with (mkAPInt 2 0).
    unfold bit. cbn [Zero One Val]. rewrite Z.bits_0. done.
Defined.

(** X17.  [naiveMulhs] is commutative: exchanging the operands changes
    neither whether it returns nor what it returns. *)
Theorem naiveMulhs_comm lhs rhs w :
  hasWidth w lhs → hasWidth w rhs → naiveMulhs lhs rhs = naiveMulhs rhs lhs.
Proof.
  intros Hl Hr.
  destruct (naiveMulhs lhs rhs) as [r|] eqn:Hrun.
  - destruct (naiveMulhs_Some_inv lhs rhs w r Hl Hr Hrun) as (Hkl & Hkr & Hw).
    destruct (naiveMulhs_defined rhs lhs w Hr Hl Hkr Hkl Hw) as [r' Hrun'].
    rewrite Hrun'. f_equal.
    destruct (naiveMulhs_rows lhs rhs w r Hl Hr Hrun) as (cl & cr & _ & Hcl & Hcr & _).
    destruct (naiveMulhs_result lhs rhs w r Hl Hr Hrun) as [(_ & _ & Hz & Ho) _].
    destruct (naiveMulhs_result rhs lhs w r' Hr Hl Hrun') as [(_ & _ & Hz' & Ho') _].
    apply KnownBits_eq; [lia..|]. intros p Hp.
    destruct (naiveMulhs_bits lhs rhs w r cl cr Hl Hr Hrun Hcl Hcr p Hp) as [HZ HO].
    destruct (naiveMulhs_bits rhs lhs w r' cr cl Hr Hl Hrun' Hcr Hcl p Hp) as [HZ' HO'].
    rewrite HZ, HO, HZ', HO'.
    assert (∀ a b, mulhsExact w a b = mulhsExact w b a) as Hcomm
      by (intros a b; unfold mulhsExact; by rewrite Z.mul_comm).
    split; (split; intros [Hpw Hv]; (split; [done|]); intros a b Ha Hb;
            rewrite Hcomm; by apply Hv).
  - destruct (naiveMulhs rhs lhs) as [r'|] eqn:Hrun'; [|done].
    destruct (naiveMulhs_Some_inv rhs lhs w r' Hr Hl Hrun') as (Hkr & Hkl & Hw).
    destruct (naiveMulhs_defined lhs rhs w Hl Hr Hkl Hkr Hw) as [r Hr']. congruence.
Qed.

Lemma naiveMulhs_comm_witness :
  naiveMulhs (mkKnownBits (mkAPInt 2 2) (mkAPInt 2 1)) (KnownBits.make 2)
  = naiveMulhs (KnownBits.make 2) (mkKnownBits (mkAPInt 2 2) (mkAPInt 2 1)).
Proof.
  apply (naiveMulhs_comm _ _ 2); unfold hasWidth, wfAPInt; simpl; lia.
Defined.

(** X18.  On two operands with no Unknown bit, [naiveMulhs] returns the
    exact high product of the two values with every bit known. *)
Theorem naiveMulhs_known lhs rhs w :
  hasWidth w lhs → hasWidth w rhs → 1 ≤ w < 2 ^ 31 →
  numUnknown lhs = 0 → numUnknown rhs = 0 →
  let product := mulhsExact w (One lhs) (One rhs) in
  naiveMulhs lhs rhs = Some (mkKnownBits (APInt.not product) product).
Proof.
  intros Hl Hr Hw Hkl Hkr product.
  rewrite (naiveMulhs_unfold lhs rhs w Hl Hr).
  rewrite (concretization_known lhs w Hl Hkl), (concretization_known rhs w Hr Hkr).
  cbn [mbind option_bind mapM].
  assert (isValue w (One lhs)) by (destruct Hl as (_ & ? & _ & ?); by split).
  assert (isValue w (One rhs)) by (destruct Hr as (_ & ? & _ & ?); by split).
  rewrite mulhsPair_exact by done. cbn [mbind option_bind mret option_ret concat app].
  apply (abstraction_single w). apply mulhsExact_isValue. lia.
Qed.

Lemma naiveMulhs_known_witness :
  let product := mulhsExact 2 (mkAPInt 2 3) (mkAPInt 2 2) in
  naiveMulhs (mkKnownBits (mkAPInt 2 0) (mkAPInt 2 3)) (mkKnownBits (mkAPInt 2 1) (mkAPInt 2 2))
  = Some (mkKnownBits (APInt.not product) product).
Proof.
  apply (naiveMulhs_known (mkKnownBits (mkAPInt 2 0) (mkAPInt 2 3))
                          (mkKnownBits (mkAPInt 2 1) (mkAPInt 2 2)) 2).
  - unfold hasWidth, wfAPInt. simpl. lia.
  - unfold hasWidth, wfAPInt. simpl. lia.
  - lia.
  - vm_compute. reflexivity.
  - vm_compute. reflexivity.
Defined.

(** X19.  [naiveMulhs] is monotone: on operands that know more it returns
    a state that knows at least as much. *)
Theorem naiveMulhs_monotone lhs lhs' rhs rhs' w r r' :
  hasWidth w lhs → noConflict lhs → hasWidth w lhs' → noConflict lhs' →
  hasWidth w rhs → noConflict rhs → hasWidth w rhs' → noConflict rhs' →
  refines lhs' lhs → refines rhs' rhs →
  naiveMulhs lhs rhs = Some r → naiveMulhs lhs' rhs' = Some r' →
  refines r' r.
Proof.
  intros Hl Hncl Hl' Hncl' Hr Hncr Hr' Hncr' Hrefl Hrefr Hrun Hrun' k Hk.
  destruct (naiveMulhs_rows lhs rhs w r Hl Hr Hrun) as (cl & cr & _ & Hcl & Hcr & _).
  destruct (naiveMulhs_rows lhs' rhs' w r' Hl' Hr' Hrun') as (cl' & cr' & _ & Hcl' & Hcr' & _).
  destruct (naiveMulhs_bits lhs rhs w r cl cr Hl Hr Hrun Hcl Hcr k Hk) as [HZ HO].
  destruct (naiveMulhs_bits lhs' rhs' w r' cl' cr' Hl' Hr' Hrun' Hcl' Hcr' k Hk) as [HZ' HO'].
  rewrite HZ, HO, HZ', HO'.
  assert (∀ a s s' c c', hasWidth w s → noConflict s → hasWidth w s' → noConflict s' →
            refines s' s → concretization s = Some c → concretization s' = Some c' →
            a ∈ c' → a ∈ c) as Hsub.
  { intros a s s' c c' Hs Hncs Hs' Hncs' Href Hc Hc' Ha.
    pose proof (concretization_Some_inv s w c Hs Hc).
    pose proof (concretization_Some_inv s' w c' Hs' Hc').
    apply (concretization_elem_of s' w c' a) in Ha as [Hval Hcons]; [|done..].
    apply (concretization_elem_of s w c a); [done..|].
    split; [done | by eapply refines_consistent]. }
  split; intros [Hkw Hv]; (split; [done|]); intros a b Ha Hb; apply Hv.
  - by apply (Hsub a lhs lhs' cl cl').
  - by apply (Hsub b rhs rhs' cr cr').
  - by apply (Hsub a lhs lhs' cl cl').
  - by apply (Hsub b rhs rhs' cr cr').
Qed.

Lemma naiveMulhs_monotone_witness :
  refines (mkKnownBits (mkAPInt 2 3) (mkAPInt 2 0)) (mkKnownBits (mkAPInt 2 0) (mkAPInt 2 0)).
Proof.
  apply (naiveMulhs_monotone (KnownBits.make 2) (mkKnownBits (mkAPInt 2 2) (mkAPInt 2 1))
                             (KnownBits.make 2) (mkKnownBits (mkAPInt 2 2) (mkAPInt 2 1)) 2).
  - unfold hasWidth, wfAPInt. simpl. lia.
  - reflexivity.
  - unfold hasWidth, wfAPInt. simpl. lia.
  - reflexivity.
  - unfold hasWidth, wfAPInt. simpl. lia.
  - reflexivity.
  - unfold hasWidth, wfAPInt. simpl. lia.
  - reflexivity.
  - intros k Hk. unfold bit. simpl. rewrite Z.bits_0. done.
  - intros k Hk. unfold bit. simpl. rewrite Z.bits_0. done.
  - vm_compute. reflexivity.
  - vm_compute. reflexivity.
Defined.

(** ** The precision that the engine compares *)

Lemma filter_length_partition {A : Type} (P Q R : A → Prop)
    `{!∀ x, Decision (P x)} `{!∀ x, Decision (Q x)} `{!∀ x, Decision (R x)} (l : list A) :
  (∀ x, x ∈ l → (P x ∧ ¬ Q x ∧ ¬ R x) ∨ (¬ P x ∧ Q x ∧ ¬ R x) ∨ (¬ P x ∧ ¬ Q x ∧ R x)) →
  (length (filter P l) + length (filter Q l) + length (filter R l) = length l)%nat.
Proof.
  induction l as [|x l IH]; intros Hone; [done|].
  assert (length (filter P l) + length (filter Q l) + length (filter R l) = length l)%nat
    as Hl by (apply IH; intros y Hy; apply Hone; by right).
  rewrite !filter_cons.
  destruct (Hone x) as [(? & ? & ?)|[(? & ? & ?)|(? & ? & ?)]]; [left|..];
    repeat case_decide; try done; simpl; lia.
Qed.

(** X20.  The precision of a conflict-free state, as the engine computes
    it, is its width less the number of its Unknown bits. *)
Theorem precision_unknown kb w :
  hasWidth w kb → noConflict kb → w < 2 ^ 31 →
  precision kb = w - numUnknown kb.
Proof.
  intros (([Hw _] & _) & _ & Hz & Ho) Hnc Hw31. rewrite Hz in Hw.
  rewrite (precision_exact w) by (done || lia).
  unfold precisionCount, APInt.countPopulation, numUnknown, unknownBits. rewrite Hz, Ho.
  pose proof (filter_length_partition
                (λ i, Z.testbit (Val (Zero kb)) i = true)
                (λ i, Z.testbit (Val (One kb)) i = true)
                (λ k, isUnknown kb k = true) (seqZ 0 w)) as Hsum.
  rewrite length_seqZ in Hsum. rewrite <- (Z2Nat.id w) at 3 by lia.
  rewrite <- Hsum; [lia|]. intros k _. unfold isUnknown.
  fold (bit (Zero kb) k). fold (bit (One kb) k).
  destruct (bit (Zero kb) k) eqn:HZ.
  - rewrite (noConflict_bits kb k Hnc HZ). left. done.
  - destruct (bit (One kb) k); [right; left | right; right]; done.
Qed.

Lemma precision_unknown_witness :
  precision (mkKnownBits (mkAPInt 3 4) (mkAPInt 3 1))
  = 3 - numUnknown (mkKnownBits (mkAPInt 3 4) (mkAPInt 3 1)).
Proof.
  apply precision_unknown.
  - unfold hasWidth, wfAPInt. simpl. lia.
  - reflexivity.
  - lia.
Defined.

(** ** More on [testMulhsTransferFunctions] *)

Lemma filter_length_mono {A : Type} (P Q : A → Prop)
    `{!∀ x, Decision (P x)} `{!∀ x, Decision (Q x)} (l : list A) :
  (∀ x, x ∈ l → P x → Q x) → (length (filter P l) ≤ length (filter Q l))%nat.
Proof.
  induction l as [|x l IH]; intros HPQ; [done|].
  assert (length (filter P l) ≤ length (filter Q l))%nat as Hle
    by (apply IH; intros y Hy; apply HPQ; by right).
  rewrite !filter_cons. destruct (decide (P x)) as [HP|HP].
  - rewrite decide_True by (apply HPQ; [left | done]). simpl. lia.
  - destruct (decide (Q x)); simpl; lia.
Qed.

Lemma countPopulation_mono a b :
  BitWidth a = BitWidth b →
  (∀ k, 0 ≤ k < BitWidth a → bit a k = true → bit b k = true) →
  APInt.countPopulation a ≤ APInt.countPopulation b.
Proof.
  intros Hw Hbits. unfold APInt.countPopulation. rewrite <- Hw.
  apply inj_le, filter_length_mono. intros k Hk%elem_of_seqZ. apply Hbits. lia.
Qed.

(** A property of the counters that every round of the pair loop keeps
    holds when the run ends. *)
Lemma testMulhs_invariant mulhs w (P : Counters → Prop) :
  1 ≤ w → 3 ^ w < 2 ^ 64 →
  P (mkCounters 0 0 0 0) →
  (∀ LHS RHS c, hasWidth w LHS → noConflict LHS → hasWidth w RHS → noConflict RHS →
     P c → ∃ c', testPair mulhs w LHS RHS c = Some c' ∧ P c') →
  ∃ r, testMulhsTransferFunctions mulhs w = Some r ∧
       reportBitWidth r = w ∧ totalKnownBits r = 3 ^ w ∧ P (reportCounters r).
Proof.
  intros Hw H3 H0 Hstep. pose proof (pow3_fits w ltac:(lia) H3) as Hw64.
  unfold testMulhsTransferFunctions.
  destruct (enumerate_spec w) as (l & Hl & Hst); [lia|]. rewrite Hl. simpl.
  pose proof (enumerate_length w l ltac:(lia) Hl) as Hlen.
  rewrite Z.mod_small in Hlen by (split; [apply Z.pow_nonneg; lia | done]).
  assert (∀ s, s ∈ l → hasWidth w s ∧ noConflict s) as Hstates
    by (intros s Hs; eapply enumerate_states; [|done..]; lia).
  destruct (forM_invariant
              (λ LHS c, forM (λ RHS c, testPair mulhs w LHS RHS c) l c)
              (λ _ c, P c) l (mkCounters 0 0 0 0)) as (c & Hrun & Hc); [done | |].
  - intros _ LHS c HL Hc.
    apply (forM_invariant (λ RHS c, testPair mulhs w LHS RHS c) (λ _ c, P c) l c Hc).
    intros _ RHS c' HR Hc'.
    destruct (Hstates LHS HL), (Hstates RHS HR). by apply Hstep.
  - rewrite Hrun. simpl. eexists. split; [done|]. done.
Qed.

Section SoundReference.

Variables (mulhs : KnownBits → KnownBits → KnownBits) (w : Z).

Hypothesis reference_width : keepsWidth w mulhs.
Hypothesis reference_sound : soundAt w mulhs.
Hypothesis width_range : 1 ≤ w < 64.

(** Against a sound reference the naive result never contradicts, and is
    never the less precise one. *)
Lemma sound_pair LHS RHS c :
  hasWidth w LHS → noConflict LHS → hasWidth w RHS → noConflict RHS →
  ∃ v, testPair mulhs w LHS RHS c = Some (tally v c) ∧ (v = NaivePreciser ∨ v = Equal).
Proof.
  intros Hl Hncl Hr Hncr.
  destruct (testPair_spec mulhs w reference_width width_range LHS RHS c Hl Hr)
    as (naive & v & Hn & Hv & Hi & Hc & Hp & He).
  exists v. split; [done|].
  destruct (naiveMulhs_rows LHS RHS w naive Hl Hr Hn) as (cl & cr & _ & Hcl & Hcr & _).
  pose proof (concretization_Some_inv LHS w cl Hl Hcl) as Hkl.
  pose proof (concretization_Some_inv RHS w cr Hr Hcr) as Hkr.
  assert (∀ a b, a ∈ cl → b ∈ cr → consistent (mulhsExact w a b) (mulhs LHS RHS)) as Hsound.
  { intros a b Ha Hb.
    apply (concretization_elem_of LHS w cl a Hl Hncl Hkl Hcl) in Ha as [? ?].
    apply (concretization_elem_of RHS w cr b Hr Hncr Hkr Hcr) in Hb as [? ?].
    by apply reference_sound. }
  pose proof (naiveMulhs_bits LHS RHS w naive cl cr Hl Hr Hn Hcl Hcr) as Hbits.
  pose proof (concretization_nonempty LHS w cl Hl Hcl) as Hnel.
  pose proof (concretization_nonempty RHS w cr Hr Hcr) as Hner.
  destruct cl as [|a0 cl0] eqn:Ecl; [done|]. destruct cr as [|b0 cr0] eqn:Ecr; [done|].
  rewrite <- Ecl, <- Ecr in *.
  assert (a0 ∈ cl) as Ha0 by (rewrite Ecl; left).
  assert (b0 ∈ cr) as Hb0 by (rewrite Ecr; left).
  assert (¬ contradictory w (mulhs LHS RHS) naive) as Hnot.
  { intros (k & Hk & Hcase). destruct (Hbits k ltac:(lia)) as [HZ HO].
    destruct (Hsound a0 b0 Ha0 Hb0 k ltac:(lia)) as [Hz Ho].
    destruct Hcase as [[Hrz Hno]|[Hro Hnz]].
    - apply HO in Hno as [_ Hno]. rewrite (Hno a0 b0 Ha0 Hb0) in Hz. by specialize (Hz Hrz).
    - apply HZ in Hnz as [_ Hnz]. rewrite (Hnz a0 b0 Ha0 Hb0) in Ho. by specialize (Ho Hro). }
  destruct (reference_width LHS RHS Hl Hr) as [Hwz Hwo].
  destruct (naiveMulhs_result LHS RHS w naive Hl Hr Hn) as [(_ & _ & Hnz & Hno) _].
  assert (precisionCount (mulhs LHS RHS) ≤ precisionCount naive) as Hle.
  { unfold precisionCount.
    assert (APInt.countPopulation (Zero (mulhs LHS RHS)) ≤ APInt.countPopulation (Zero naive)).
    { apply countPopulation_mono; [lia|]. rewrite Hwz. intros k Hk Hbit.
      apply (Hbits k ltac:(lia)). split; [lia|]. intros a b Ha Hb.
      by apply (Hsound a b Ha Hb k ltac:(lia)). }
    assert (APInt.countPopulation (One (mulhs LHS RHS)) ≤ APInt.countPopulation (One naive)).
    { apply countPopulation_mono; [lia|]. rewrite Hwo. intros k Hk Hbit.
      apply (Hbits k ltac:(lia)). split; [lia|]. intros a b Ha Hb.
      by apply (Hsound a b Ha Hb k ltac:(lia)). }
    lia. }
  destruct v; [|by left|by right|].
  - destruct Hc as [Hc _]. destruct (Hc eq_refl). lia.
  - destruct Hi as [Hi _]. exfalso. apply Hnot. by apply Hi.
Qed.

End SoundReference.

(** X21.  When the reference is sound, a run of the engine counts no pair as
    incomparable and no pair as more precise in the reference: a count
    other than 0 in either place shows an unsound reference. *)
Theorem sound_reference_counters mulhs w :
  1 ≤ w → 3 ^ w < 2 ^ 64 → keepsWidth w mulhs → soundAt w mulhs →
  ∃ r, testMulhsTransferFunctions mulhs w = Some r ∧
       compositeMorePrecise (reportCounters r) = 0 ∧
       incomparableResults (reportCounters r) = 0.
Proof.
  intros Hw H3 Hkeeps Hsound. pose proof (pow3_fits w ltac:(lia) H3) as Hw64.
  destruct (testMulhs_invariant mulhs w
              (λ c, compositeMorePrecise c = 0 ∧ incomparableResults c = 0))
    as (r & Hr & _ & _ & Hc); [done | done | done | | by exists r].
  intros LHS RHS c Hl Hncl Hr Hncr [Hc0 Hi0].
  destruct (sound_pair mulhs w Hkeeps Hsound ltac:(lia) LHS RHS c Hl Hncl Hr Hncr)
    as (v & Hv & [-> | ->]); eexists; (split; [done|]); done.
Qed.

Lemma sound_reference_counters_witness :
  ∃ r, testMulhsTransferFunctions topMulhs 2 = Some r ∧
       compositeMorePrecise (reportCounters r) = 0 ∧
       incomparableResults (reportCounters r) = 0.
Proof.
  apply sound_reference_counters.
  - lia.
  - lia.
  - intros lhs rhs (_ & _ & Hz & _) _. unfold topMulhs. simpl. lia.
  - intros lhs rhs a b _ _ _ _ _ _ _ _ k Hk. unfold topMulhs, bit. simpl.
    by rewrite Z.bits_0.
Defined.

Lemma exact_pair mulhs w LHS RHS c :
  keepsWidth w mulhs → exactAt w mulhs → 1 ≤ w < 64 →
  hasWidth w LHS → noConflict LHS → hasWidth w RHS → noConflict RHS →
  testPair mulhs w LHS RHS c = Some (tally Equal c).
Proof.
  intros Hkeeps Hexact Hw Hl Hncl Hr Hncr.
  destruct (testPair_spec mulhs w Hkeeps Hw LHS RHS c Hl Hr)
    as (naive & v & Hn & Hv & _ & _ & _ & He).
  rewrite (Hexact LHS RHS Hl Hncl Hr Hncr) in Hn. simplify_eq.
  destruct (naiveMulhs_result LHS RHS w (mulhs LHS RHS) Hl Hr (Hexact LHS RHS Hl Hncl Hr Hncr))
    as [_ Hnc].
  assert (v = Equal) as ->; [|done]. apply He. split; [|done].
  intros (k & Hk & [[Hz Ho]|[Ho Hz]]); by rewrite (noConflict_bits _ k Hnc Hz) in Ho.
Qed.

(** X22.  When the reference returns what [naiveMulhs] returns, a run counts
    every one of the [(3 ^ w) ^ 2] pairs as of the same precision. *)
Theorem exact_reference_counters mulhs w :
  1 ≤ w → (3 ^ w) ^ 2 < 2 ^ 64 → keepsWidth w mulhs → exactAt w mulhs →
  ∃ r, testMulhsTransferFunctions mulhs w = Some r ∧
       reportCounters r = mkCounters 0 0 ((3 ^ w) ^ 2) 0.
Proof.
  intros Hw H9 Hkeeps Hexact.
  assert (0 < 3 ^ w) as Hpos by (apply Z.pow_pos_nonneg; lia).
  assert (3 ^ w < 2 ^ 64) as H3 by nia.
  pose proof (pow3_fits w ltac:(lia) H3) as Hw64.
  destruct (testMulhs_runs mulhs w Hkeeps Hw H3) as (r & Hr & _ & _ & _ & Hsum).
  destruct (testMulhs_invariant mulhs w
              (λ c, compositeMorePrecise c = 0 ∧ naiveMorePrecise c = 0 ∧
                    incomparableResults c = 0))
    as (r' & Hr' & _ & _ & Hc); [done | done | done | |].
  - intros LHS RHS c Hl Hncl Hrw Hncr (? & ? & ?).
    rewrite (exact_pair mulhs w LHS RHS c) by (done || lia).
    eexists. split; [done|]. done.
  - rewrite Hr in Hr'. simplify_eq. exists r'. split; [done|].
    destruct (reportCounters r') as [c1 c2 c3 c4]. unfold counterSum in Hsum.
    simpl in *. destruct Hc as (-> & -> & ->). f_equal.
    rewrite Z.pow_2_r in *. specialize (Hsum H9). lia.
Qed.

Lemma naiveReference_keepsWidth w : 0 ≤ w < 2 ^ 32 → keepsWidth w naiveReference.
Proof.
  intros Hw lhs rhs Hl Hr. unfold naiveReference.
  destruct (naiveMulhs lhs rhs) as [r|] eqn:Hrun; simpl.
  - destruct (naiveMulhs_result lhs rhs w r Hl Hr Hrun) as [(_ & _ & ? & ?) _]. done.
  - destruct Hl as (_ & _ & ? & _). done.
Qed.

Lemma naiveReference_exact w : 1 ≤ w < 64 → exactAt w naiveReference.
Proof.
  intros Hw lhs rhs Hl _ Hr _. unfold naiveReference.
  destruct (naiveMulhs_defined lhs rhs w Hl Hr) as [r ->]; [| |lia|done].
  - destruct Hl as (_ & _ & Hz & _). pose proof (numUnknown_le lhs). lia.
  - destruct Hr as (_ & _ & Hz & _). pose proof (numUnknown_le rhs). lia.
Qed.

Lemma exact_reference_counters_witness :
  ∃ r, testMulhsTransferFunctions naiveReference 2 = Some r ∧
       reportCounters r = mkCounters 0 0 ((3 ^ 2) ^ 2) 0.
Proof.
  apply exact_reference_counters.
  - lia.
  - lia.
  - apply naiveReference_keepsWidth. lia.
  - apply naiveReference_exact. lia.
Defined.

(** ** More on [main] *)

(** X23.  An argument that [std::stoi] reads as a number [n] from 1 on with
    [3 ^ n] below [2 ^ 64] makes [main] run the engine at width [n] and
    return 0; whatever follows the first argument is ignored. *)
Theorem main_width mulhs prog arg rest n :
  stoi arg = StoiValue n → 1 ≤ n → 3 ^ n < 2 ^ 64 → keepsWidth n mulhs →
  ∃ r, main mulhs (prog :: arg :: rest) = Returned 0 (Results r) ∧
       reportBitWidth r = n ∧ totalKnownBits r = 3 ^ n.
Proof.
  intros Harg Hn H3 Hkeeps. pose proof (pow3_fits n ltac:(lia) H3) as Hn64.
  destruct (testMulhs_runs mulhs n Hkeeps Hn H3) as (r & Hr & Hw & Htotal & _).
  exists r. split; [|done]. unfold main.
  replace (Z.of_nat (length (prog :: arg :: rest)) <? 2) with false
    by (symmetry; apply Z.ltb_ge; simpl length; lia).
  cbn [lookup list_lookup]. rewrite Harg.
  unfold wrap32. rewrite Z.mod_small by lia. by rewrite Hr.
Qed.

Lemma main_width_witness :
  ∃ r, main topMulhs ["testMulhs"; " +2 bits"; "ignored"]%string = Returned 0 (Results r) ∧
       reportBitWidth r = 2 ∧ totalKnownBits r = 3 ^ 2.
Proof.
  apply main_width.
  - vm_compute. reflexivity.
  - lia.
  - lia.
  - intros lhs rhs (_ & _ & Hz & _) _. unfold topMulhs. simpl. lia.
Defined.
